(** * hx, a hex editor for the terminal: the thingy table, the search-string
      parser and the undo list

    A shallow embedding of [thingy.c] (the byte-sequence substitution table
    and its definition-file loader) and of the parts of the editor that
    [editor.h] declares, with the properties stated about them.

    Conventions of the embedding.

    - A byte ([unsigned char], [char]) is a [Z] in [0, 255].
    - A memory object (a [char] array, a heap block) is the [list Z] of its
      bytes.  A pointer is [NULL] or [Ptr obj], the object it points into,
      seen from the pointed-at byte on.
    - A C function that mutates [*tbl] returns the new table next to its
      return code.
    - The result of a C function is an [option]: [None] stands for "the C
      code has no defined result here" (it dereferences [NULL] or reads a
      byte past the end of an object and branches on it).
    - A pointer to a [struct linked_list] is [NULL], a node with what its
      [next] holds, or the content of a [next] field that no statement has
      written: [thingy_table_assign] links in a block from [malloc] and
      never stores to its [next].  A loop that tests such a pointer has no
      defined result. *)

From Stdlib Require Import ZArith Lia.
From Stdlib Require Strings.Ascii Strings.String.
From stdpp Require Import base tactics numbers option list.
Import String.StringSyntax.
Delimit Scope string_scope with string.

Local Open Scope Z_scope.

(** ** Pointers and C strings *)

Inductive ptr (A : Type) : Type :=
  | NULL
  | Ptr (obj : A).
Arguments NULL {A}.
Arguments Ptr {A} obj.

Definition deref {A} (p : ptr A) : option A :=
  match p with
  | NULL => None
  | Ptr a => Some a
  end.

(** The bytes of a string literal, with its terminator. *)
Definition lit (s : String.string) : list Z :=
  map (fun a => Z.of_nat (Ascii.nat_of_ascii a))
      (String.list_ascii_of_string s) ++ [0].
Arguments lit s%_string.

(** The characters of a C string: the bytes before the first NUL. *)
Fixpoint cstr (s : list Z) : list Z :=
  match s with
  | [] => []
  | c :: s' => if c =? 0 then [] else c :: cstr s'
  end.

Definition strlen (s : list Z) : nat := length (cstr s).

(** [strdup]: a fresh block holding the bytes of [s] up to and including the
    first NUL.  When the object [s] holds no NUL, the C function keeps
    reading the bytes that follow the object; they land in the copy after
    the bytes of [s], and the model leaves them out (see [memcmp]). *)
Fixpoint strdup (s : list Z) : list Z :=
  match s with
  | [] => []
  | c :: s' => if c =? 0 then [0] else c :: strdup s'
  end.

Definition strdup_ptr (p : ptr (list Z)) : option (list Z) :=
  s ← deref p; Some (strdup s).

(** [memcmp(a, b, n)]: [Some 0] when the first [n] bytes agree, [Some d]
    with [d <> 0] at the first difference, and no result when the
    comparison runs past the end of [a] or [b] with all bytes equal so far:
    the byte it reads there is not part of the object. *)
Fixpoint memcmp (a b : list Z) (n : nat) {struct n} : option Z :=
  match n with
  | O => Some 0
  | S n' =>
      match a, b with
      | x :: a', y :: b' => if x =? y then memcmp a' b' n' else Some (x - y)
      | _, _ => None
      end
  end.

(** Membership of a character in the set given by the C string [set]. *)
Definition in_set (c : Z) (set : list Z) : bool :=
  existsb (Z.eqb c) (cstr set).

Fixpoint strspn (s accept : list Z) : nat :=
  match s with
  | [] => O
  | c :: s' =>
      if (negb (c =? 0)) && in_set c accept then S (strspn s' accept) else O
  end.

Fixpoint strcspn (s reject : list Z) : nat :=
  match s with
  | [] => O
  | c :: s' =>
      if (c =? 0) || in_set c reject then O else S (strcspn s' reject)
  end.

(** [strtok(str, delim)] with its hidden position made explicit: [save] is
    the position left by the previous call, and the new one is returned
    with the token.  The token is returned NUL-terminated, as [strtok]
    leaves it after overwriting the delimiter. *)
Definition strtok (str : ptr (list Z)) (delim save : list Z)
  : ptr (list Z) * list Z :=
  let s := match str with Ptr s => s | NULL => save end in
  let s := drop (strspn s delim) s in
  match cstr s with
  | [] => (NULL, s)
  | _ :: _ =>
      let n := strcspn s delim in
      (Ptr (take n s ++ [0]),
       match drop n s with
       | c :: s' => if c =? 0 then c :: s' else s'
       | [] => []
       end)
  end.

(** [strrchr(s, ch)] for [ch <> 0]: the index of the last [ch] among the
    characters of [s], if any. *)
Fixpoint strrchr (s : list Z) (ch : Z) : option nat :=
  match s with
  | [] => None
  | c :: s' =>
      if c =? 0 then None
      else match strrchr s' ch with
           | Some j => Some (S j)
           | None => if c =? ch then Some O else None
           end
  end.

(** ** The table: [struct linked_list] and [struct thingy_table] *)

(** The fields [length], [key] and [value] of a chain node.  Its [next] is
    part of the [chain] that holds the node. *)
Module linked_list.
Record t : Type := mk { length : Z; key : list Z; value : list Z }.
End linked_list.

(** A value of type [struct linked_list*], as it stands in [mbseqs[i]] or
    in the [next] of a node: [NULL], a pointer to a node, given with the
    [next] of that node, or [chain_unwritten], the content of a [next]
    that has never been stored to.  [malloc] does not clear the block it
    returns, so that content is whatever the block held before. *)
Inductive chain : Type :=
  | chain_NULL
  | chain_unwritten
  | chain_node (n : linked_list.t) (next : chain).

(** The nodes that a walk from the pointer passes. *)
Fixpoint nodes (c : chain) : list linked_list.t :=
  match c with
  | chain_node n next => n :: nodes next
  | _ => []
  end.

(** [values] and [mbseqs] are arrays of 256 pointers indexed by an
    [unsigned char]: total maps from the byte. *)
Record thingy_table : Type := mk_table {
  longest_key : Z;
  values : Z -> ptr (list Z);
  mbseqs : Z -> chain
}.

Definition upd {A} (f : Z -> A) (i : Z) (x : A) : Z -> A :=
  fun j => if j =? i then x else f j.

(** [malloc] and [memset(nt, 0, ...)]. *)
Definition thingy_table_init : thingy_table :=
  {| longest_key := 0; values := fun _ => NULL;
     mbseqs := fun _ => chain_NULL |}.

(** [if (tbl->longest_key < length) tbl->longest_key = length;] *)
Definition raise_longest_key (tbl : thingy_table) (len : Z) : thingy_table :=
  if longest_key tbl <? len
  then {| longest_key := len; values := values tbl; mbseqs := mbseqs tbl |}
  else tbl.

Definition set_value (tbl : thingy_table) (b : Z) (v : ptr (list Z))
  : thingy_table :=
  {| longest_key := longest_key tbl; values := upd (values tbl) b v;
     mbseqs := mbseqs tbl |}.

Definition set_chain (tbl : thingy_table) (b : Z) (c : chain)
  : thingy_table :=
  {| longest_key := longest_key tbl; values := values tbl;
     mbseqs := upd (mbseqs tbl) b c |}.

(** The [while] loop over [curitem] of [thingy_table_assign] and the
    code after it.  The flag tells whether a new node was linked in (the
    path that goes on to raise [longest_key]) or a value was replaced (the
    path that returns from inside the loop).  The loop ends at a [NULL]:
    the new node is stored there, with [strdup] copies of the key and the
    value; [newitem->next] is not assigned.  The test of the loop on a
    [next] that was never written has no defined result. *)
Fixpoint assign_chain (curitem : chain) (len : Z)
    (key : list Z) (value : ptr (list Z))
  : option (chain * bool) :=
  match curitem with
  | chain_NULL =>
      v ← strdup_ptr value;
      Some (chain_node (linked_list.mk len (strdup key) v) chain_unwritten,
            true)
  | chain_unwritten => None
  | chain_node n next =>
      if linked_list.length n =? len then
        r ← memcmp (linked_list.key n) key (Z.to_nat len);
        if r =? 0 then
          v ← strdup_ptr value;
          Some (chain_node
                  (linked_list.mk (linked_list.length n) (linked_list.key n) v)
                  next, false)
        else
          match assign_chain next len key value with
          | None => None
          | Some (next', added) => Some (chain_node n next', added)
          end
      else
        match assign_chain next len key value with
        | None => None
        | Some (next', added) => Some (chain_node n next', added)
        end
  end.

Definition thingy_table_assign (tbl : thingy_table) (len : Z)
    (key value : ptr (list Z)) : option (Z * thingy_table) :=
  if len =? 0 then Some (1, tbl)
  else if len =? 1 then
    k ← deref key;
    k0 ← k !! O;
    match values tbl k0 with
    | Ptr _ =>
        v ← strdup_ptr value;
        Some (0, raise_longest_key (set_value tbl k0 (Ptr v)) len)
    | NULL =>
        v ← strdup_ptr value;
        Some (0, raise_longest_key (set_value tbl k0 (Ptr v)) len)
    end
  else
    k ← deref key;
    first_char ← k !! O;
    match assign_chain (mbseqs tbl first_char) len k value with
    | None => None
    | Some (chain, added) =>
        let tbl' := set_chain tbl first_char chain in
        Some (0, if added then raise_longest_key tbl' len else tbl')
    end.

(** The loop of [thingy_table_search]. *)
Fixpoint search_chain (curitem : chain) (len : Z) (key : list Z)
  : option (ptr (list Z)) :=
  match curitem with
  | chain_NULL => Some NULL
  | chain_unwritten => None
  | chain_node n next =>
      if linked_list.length n =? len then
        r ← memcmp key (linked_list.key n) (Z.to_nat len);
        if r =? 0 then Some (Ptr (linked_list.value n))
        else search_chain next len key
      else search_chain next len key
  end.

Definition thingy_table_search (tbl : thingy_table) (len : Z)
    (key : ptr (list Z)) : option (ptr (list Z)) :=
  match key with
  | NULL => Some NULL
  | Ptr k =>
      if len =? 0 then Some NULL
      else if len >? longest_key tbl then Some NULL
      else if len =? 1 then k0 ← k !! O; Some (values tbl k0)
      else k0 ← k !! O; search_chain (mbseqs tbl k0) len k
  end.

(** The loop of [thingy_table_delete]: the chain without its first matching
    node, or [NULL] when no node matches.  The pointer that led to the
    matching node is overwritten with the [next] of that node, written or
    not. *)
Fixpoint delete_chain (curitem : chain) (len : Z) (key : list Z)
  : option (ptr chain) :=
  match curitem with
  | chain_NULL => Some NULL
  | chain_unwritten => None
  | chain_node n next =>
      if linked_list.length n =? len then
        r ← memcmp key (linked_list.key n) (Z.to_nat len);
        if r =? 0 then Some (Ptr next)
        else
          r' ← delete_chain next len key;
          Some (match r' with
                | NULL => NULL
                | Ptr next' => Ptr (chain_node n next')
                end)
      else
        r' ← delete_chain next len key;
        Some (match r' with
              | NULL => NULL
              | Ptr next' => Ptr (chain_node n next')
              end)
  end.

Definition thingy_table_delete (tbl : thingy_table) (len : Z)
    (key : ptr (list Z)) : option (Z * thingy_table) :=
  match key with
  | NULL => Some (1, tbl)
  | Ptr k =>
      if len =? 0 then Some (1, tbl)
      else if len >? longest_key tbl then Some (1, tbl)
      else if len =? 1 then
        k0 ← k !! O;
        match values tbl k0 with
        | NULL => Some (1, tbl)
        | Ptr _ => Some (0, set_value tbl k0 NULL)
        end
      else
        k0 ← k !! O;
        r ← delete_chain (mbseqs tbl k0) len k;
        match r with
        | NULL => Some (1, tbl)
        | Ptr chain => Some (0, set_chain tbl k0 chain)
        end
  end.

Definition thingy_table_longest_key (tbl : thingy_table) : Z :=
  longest_key tbl.

(** ** The definition language: [thingy_table_add_from_string] *)

(** One test-and-or of the decoding loop, for instance
    [if ((c >= '0') && (c <= '9')) key[oi/2] |= (c - '0') << shift;].
    The three tests run one after the other; the stored [char] keeps the low
    eight bits. *)
Definition hex_or (c shift b : Z) : Z :=
  let b := if (48 <=? c) && (c <=? 57)
           then Z.land (Z.lor b (Z.shiftl (c - 48) shift)) 255 else b in
  let b := if (65 <=? c) && (c <=? 70)
           then Z.land (Z.lor b (Z.shiftl (c + 10 - 65) shift)) 255 else b in
  let b := if (97 <=? c) && (c <=? 102)
           then Z.land (Z.lor b (Z.shiftl (c + 10 - 97) shift)) 255 else b in
  b.

(** The [for] loop over [i < keylen_hex], from index [i] on; [key_pointer]
    holds the characters [key_pointer[i]], [key_pointer[i+1]], ... still to
    be read. *)
Fixpoint hex_loop (key_pointer : list Z) (i keylen_hex : nat) (key : list Z)
  : list Z :=
  match key_pointer with
  | [] => key
  | c :: rest =>
      let oi := (i + keylen_hex mod 2)%nat in
      let shift := if (oi mod 2 =? 0)%nat then 4 else 0 in
      hex_loop rest (S i) keylen_hex (alter (hex_or c shift) (oi / 2)%nat key)
  end.

(** [char key[keylen]; memset(key, 0, sizeof key);] and the loop. *)
Definition hex_key (key_pointer : list Z) (keylen_hex : nat) : list Z :=
  hex_loop (take keylen_hex key_pointer) O keylen_hex
           (replicate ((keylen_hex + 1) / 2)%nat 0).

Definition hex_digits : list Z := lit "0123456789ABCDEFabcdef".

Definition thingy_table_add_from_string (tbl : thingy_table)
    (string : list Z) : option (Z * thingy_table) :=
  let sd := strdup string in
  let (key_hex, save) := strtok (Ptr sd) (lit "=") [] in
  match key_hex with
  | NULL => Some (1, tbl)
  | Ptr key_hex =>
      let value : ptr (list Z) := NULL in
      let key_pointer := key_hex in
      let (value, key_pointer) :=
        if nth O key_hex 0 =? 47 (* slash *)
        then (Ptr [10; 0], drop 1 key_hex) else (value, key_pointer) in
      let (value, key_pointer) :=
        if nth O key_hex 0 =? 42 (* star *)
        then (Ptr [0; 0], drop 1 key_hex) else (value, key_pointer) in
      let keylen_hex := strspn key_pointer hex_digits in
      if negb (keylen_hex =? strlen key_pointer)%nat then Some (2, tbl)
      else
        let keylen := ((keylen_hex + 1) / 2)%nat in
        if (keylen =? 0)%nat then Some (3, tbl)
        else if (255 <? keylen)%nat then Some (4, tbl)
        else
          let key := hex_key key_pointer keylen_hex in
          match value with
          | Ptr _ =>
              r ← thingy_table_assign tbl (Z.of_nat keylen) (Ptr key) value;
              Some (0, snd r)
          | NULL =>
              let (value, _) := strtok NULL (lit "") save in
              match value with
              | NULL =>
                  r ← thingy_table_delete tbl (Z.of_nat keylen) (Ptr key);
                  Some (16 + fst r, snd r)
              | Ptr _ =>
                  r ← thingy_table_assign tbl (Z.of_nat keylen) (Ptr key)
                        value;
                  Some (0, snd r)
              end
          end
  end.

(** ** Definition files: [thingy_table_add_from_file] *)

(** [fgets(buf, size, file)] on the unread part of the file: at most
    [size - 1] bytes, stopping after a newline. *)
Fixpoint fgets_read (room : nat) (file : list Z) {struct file}
  : list Z * list Z :=
  match room, file with
  | S room', c :: file' =>
      if c =? 10 then ([c], file')
      else let (l, rest) := fgets_read room' file' in (c :: l, rest)
  | _, _ => ([], file)
  end.

Definition fgets (size : nat) (file : list Z) : ptr (list Z) * list Z :=
  match file with
  | [] => (NULL, [])
  | _ :: _ =>
      let (l, rest) := fgets_read (size - 1) file in (Ptr (l ++ [0]), rest)
  end.

(** The loop that skips initial whitespace, [curstr++] while [curstr]
    points to a space or a tab. *)
Fixpoint skip_whitespace (curstr : list Z) : list Z :=
  match curstr with
  | c :: rest =>
      if (c =? 32) || (c =? 9) then skip_whitespace rest else curstr
  | [] => []
  end.

(** [finalnewline = strrchr(curstr, 10)], and a NUL stored there when it
    is not [NULL]. *)
Definition erase_final_newline (buf : list Z) : list Z :=
  match strrchr buf 10 with
  | Some j => <[j := 0]> buf
  | None => buf
  end.

(** The body of the [while] loop for one buffer filled by [fgets]. *)
Definition add_from_file_step (tbl : thingy_table) (thingy_count : Z)
    (buf : list Z) : option (thingy_table * Z) :=
  let buf := erase_final_newline buf in
  let curstr := skip_whitespace buf in
  if nth O curstr 0 =? 0 then Some (tbl, thingy_count)
  else if nth O buf 0 =? 35 (* hash *) then Some (tbl, thingy_count)
  else
    r ← thingy_table_add_from_string tbl curstr;
    if fst r =? 0 then Some (snd r, thingy_count + 1)
    else Some (snd r, thingy_count).

(** The loop [while ((curstr = fgets(buf, 1024, file)) != NULL)].  Every
    call of [fgets] that returns a buffer consumes a byte of the file, so
    [fuel] above the length of the file is never used up. *)
Fixpoint add_from_file_loop (fuel : nat) (tbl : thingy_table)
    (file : list Z) (thingy_count : Z) : option (thingy_table * Z) :=
  match fuel with
  | O => None
  | S fuel' =>
      match fgets 1024 file with
      | (NULL, _) => Some (tbl, thingy_count)
      | (Ptr buf, rest) =>
          r ← add_from_file_step tbl thingy_count buf;
          add_from_file_loop fuel' (fst r) rest (snd r)
      end
  end.

(** [file] is what [fopen(filename, "r")] gives: [NULL], or the bytes of the
    file.  [o_thingies_loaded] points to an [int] or is [NULL]; the [int]
    it points to is returned as it is left. *)
Definition thingy_table_add_from_file (tbl : thingy_table)
    (file : ptr (list Z)) (o_thingies_loaded : ptr Z)
  : option (Z * thingy_table * ptr Z) :=
  match file with
  | NULL => Some (1, tbl, o_thingies_loaded)
  | Ptr file =>
      r ← add_from_file_loop (S (length file)) tbl file 0;
      Some (0, fst r,
            match o_thingies_loaded with
            | NULL => NULL
            | Ptr _ => Ptr (snd r)
            end)
  end.

(** ** Reachable tables and sequences of operations *)

(** The states of a table: the empty one, and what the operations of
    [thingy.h] make of a state.  An [unsigned char length] is in [0, 255];
    a key is an object of [length] bytes. *)
Inductive reachable : thingy_table -> Prop :=
  | reach_init : reachable thingy_table_init
  | reach_assign tbl len k value rc tbl' :
      reachable tbl -> 0 <= len <= 255 -> length k = Z.to_nat len ->
      thingy_table_assign tbl len (Ptr k) value = Some (rc, tbl') ->
      reachable tbl'
  | reach_delete tbl len k rc tbl' :
      reachable tbl -> 0 <= len <= 255 -> length k = Z.to_nat len ->
      thingy_table_delete tbl len (Ptr k) = Some (rc, tbl') ->
      reachable tbl'
  | reach_add_from_string tbl string rc tbl' :
      reachable tbl ->
      thingy_table_add_from_string tbl string = Some (rc, tbl') ->
      reachable tbl'
  | reach_add_from_file tbl file o rc tbl' o' :
      reachable tbl ->
      thingy_table_add_from_file tbl file o = Some (rc, tbl', o') ->
      reachable tbl'.





(** ** Keys that [strdup] copies whole *)

(** A NUL before the last byte of the key: [strdup] stops there. *)
Fixpoint early_nul (k : list Z) : bool :=
  match k with
  | [] => false
  | c :: k' =>
      match k' with
      | [] => false
      | _ :: _ => (c =? 0) || early_nul k'
      end
  end.

(** What identifies a stored entry: its length and its bytes. *)
Definition node_id (n : linked_list.t) : Z * list Z :=
  (linked_list.length n, linked_list.key n).

(** The invariant of a chain node in bucket [b] of a table whose longest
    key is [lk]. *)
Definition node_wf (lk b : Z) (n : linked_list.t) : Prop :=
  2 <= linked_list.length n <= lk /\
  exists k, length k = Z.to_nat (linked_list.length n) /\
            linked_list.key n = strdup k /\ k !! O = Some b.

Record wf (tbl : thingy_table) : Prop := mk_wf {
  wf_range : 0 <= longest_key tbl <= 255;
  wf_values : forall b v, values tbl b = Ptr v -> 1 <= longest_key tbl;
  wf_nodes :
    forall b, Forall (node_wf (longest_key tbl) b) (nodes (mbseqs tbl b))
}.

(** ** Definitions for the statements *)

(** The code of [thingy_table_add_from_string] after the first [strtok]
    has returned the token [key_hex]. *)
Definition after_strtok (tbl : thingy_table) (key_hex save : list Z)
  : option (Z * thingy_table) :=
  let value : ptr (list Z) := NULL in
  let key_pointer := key_hex in
  let (value, key_pointer) :=
    if nth O key_hex 0 =? 47
    then (Ptr [10; 0], drop 1 key_hex) else (value, key_pointer) in
  let (value, key_pointer) :=
    if nth O key_hex 0 =? 42
    then (Ptr [0; 0], drop 1 key_hex) else (value, key_pointer) in
  let keylen_hex := strspn key_pointer hex_digits in
  if negb (keylen_hex =? strlen key_pointer)%nat then Some (2, tbl)
  else
    let keylen := ((keylen_hex + 1) / 2)%nat in
    if (keylen =? 0)%nat then Some (3, tbl)
    else if (255 <? keylen)%nat then Some (4, tbl)
    else
      let key := hex_key key_pointer keylen_hex in
      match value with
      | Ptr _ =>
          r ← thingy_table_assign tbl (Z.of_nat keylen) (Ptr key) value;
          Some (0, snd r)
      | NULL =>
          let (value, _) := strtok NULL (lit "") save in
          match value with
          | NULL =>
              r ← thingy_table_delete tbl (Z.of_nat keylen) (Ptr key);
              Some (16 + fst r, snd r)
          | Ptr _ =>
              r ← thingy_table_assign tbl (Z.of_nat keylen) (Ptr key) value;
              Some (0, snd r)
          end
      end.

(** A hex digit, as the [strspn] call of the code accepts it. *)
Definition hex_digit (c : Z) : Prop := in_set c hex_digits = true.

(** How a line may go on after its key: it ends, or an equals sign
    follows. *)
Definition after_key (rest : list Z) : Prop :=
  match rest with
  | [] => True
  | c :: _ => c = 0 \/ c = 61
  end.

(** The position [strtok] keeps after a token that is followed by [rest]. *)
Definition save_after (rest : list Z) : list Z :=
  match strdup rest with
  | c :: s' => if c =? 0 then c :: s' else s'
  | [] => []
  end.

(** The characters a token of the first [strtok] call is made of. *)
Definition token_char (c : Z) : Prop := c <> 0 /\ c <> 61.

(** The characters of a token that are read as the key: the token without
    its slash or star, when it starts with one. *)
Definition key_part (t : list Z) : list Z :=
  match t with
  | p :: t' => if (p =? 47) || (p =? 42) then t' else t
  | [] => []
  end.

(** The states of the table in which [assign] of the key [k] returns before
    it tests a [next]: the key has one byte, or the chain under its first
    byte is [NULL], as [thingy_table_init] left it. *)
Definition chain_is_NULL (c : chain) : bool :=
  match c with
  | chain_NULL => true
  | _ => false
  end.

Definition fresh_for (tbl : thingy_table) (len : Z) (k : list Z) : bool :=
  (len =? 1) ||
  match k !! O with
  | Some k0 => chain_is_NULL (mbseqs tbl k0)
  | None => false
  end.

(** The table after loading the line [123=x] into the empty table. *)
Definition table_123 : thingy_table :=
  match thingy_table_add_from_string thingy_table_init (lit "123=x") with
  | Some (_, tbl) => tbl
  | None => thingy_table_init
  end.

(** The value of a hex digit.  With [hex_pairs] it gives the reading of
    HEXKEY that the decoding loop is compared with. *)
Definition digit_value (c : Z) : Z :=
  if (48 <=? c) && (c <=? 57) then c - 48
  else if (65 <=? c) && (c <=? 70) then c - 55
  else if (97 <=? c) && (c <=? 102) then c - 87
  else 0.

(** The bytes of an even number of hex digits, two digits to the byte. *)
Fixpoint hex_pairs (h : list Z) : list Z :=
  match h with
  | a :: b :: h' => (16 * digit_value a + digit_value b) :: hex_pairs h'
  | _ => []
  end.

(** The characters of [hex_digits], for case analysis. *)
Definition all_hex_digits : list Z :=
  [48; 49; 50; 51; 52; 53; 54; 55; 56; 57; 65; 66; 67; 68; 69; 70;
   97; 98; 99; 100; 101; 102].

(** What the body of the loop of [thingy_table_add_from_file] makes of a
    buffer: it passes over it, it hands it to
    [thingy_table_add_from_string] and counts it, or it hands it over and
    does not count it, with the return code it got. *)
Inductive buffer_outcome : Type :=
  | Passed
  | Rejected (rc : Z)
  | Counted.

(** A space or a tab. *)
Definition whitespace (c : Z) : bool := (c =? 32) || (c =? 9).

(** The body of the loop on a line given without its newline.  The text
    of the line is what precedes its first NUL, if it has one. *)
Definition buffer_line (tbl : thingy_table) (line : list Z)
  : option (buffer_outcome * thingy_table) :=
  let text := cstr line in
  if forallb whitespace text then Some (Passed, tbl)
  else if nth O text 0 =? 35 then Some (Passed, tbl)
  else
    r ← thingy_table_add_from_string tbl (skip_whitespace text ++ [0]);
    Some (if fst r =? 0 then Counted else Rejected (fst r), snd r).

(** What the loop adds to [thingy_count]. *)
Definition counts (o : buffer_outcome) : Z :=
  match o with
  | Counted => 1
  | _ => 0
  end.

(** Modelled from the spec: a hex digit, one of 0-9, a-f and A-F
    (sections 4.4 and 6). *)
Definition is_xdigit (c : Z) : bool :=
  ((48 <=? c) && (c <=? 57)) || ((65 <=? c) && (c <=? 70)) ||
  ((97 <=? c) && (c <=? 102)).

(** Loading in the words of the specification (sections 4.3 and 6), to be
    compared with the file loop of the code.  The kinds of line of the
    definition language: a blank line, a comment, a line that assigns a
    value to a key (HEXKEY=VALUE, /HEXKEY, *HEXKEY), a line that deletes a
    key (HEXKEY), and a malformed line. *)
Inductive line_kind : Type :=
  | Blank
  | Comment
  | Assigns (key value : list Z)
  | Deletes (key : list Z)
  | Malformed.

(** The line without the spaces and tabs it starts with. *)
Fixpoint skip_blanks (s : list Z) : list Z :=
  match s with
  | c :: rest => if whitespace c then skip_blanks rest else s
  | [] => []
  end.

(** The line without the equals signs it starts with. *)
Fixpoint skip_equals (s : list Z) : list Z :=
  match s with
  | c :: rest => if c =? 61 then skip_equals rest else s
  | [] => []
  end.

(** The characters before the first equals sign. *)
Fixpoint key_token (s : list Z) : list Z :=
  match s with
  | c :: rest => if c =? 61 then [] else c :: key_token rest
  | [] => []
  end.

(** The kind of a line whose first token is [t] and goes on with [rest].
    Section 6 gives the four forms and the errors of HEXKEY: a character
    that is no hex digit, no digit at all, more than 510 digits.  Where it
    is silent the reading is this: what follows the key of a slash or star
    line is not read, and a key with an equals sign and nothing after it
    deletes. *)
Definition classify_token (t rest : list Z) : line_kind :=
  let digits := key_part t in
  if negb (forallb is_xdigit digits) then Malformed
  else if (length digits =? 0)%nat || (510 <? length digits)%nat
  then Malformed
  else
    let key :=
      hex_pairs (if Nat.odd (length digits) then 48 :: digits else digits) in
    if nth O t 0 =? 47 then Assigns key [10]
    else if nth O t 0 =? 42 then Assigns key [0]
    else
      match rest with
      | _ :: v :: value => Assigns key (v :: value)
      | _ => Deletes key
      end.

(** The kind of a line, from its first character that is no space or tab:
    equals signs before the key are skipped, and the key ends at the next
    equals sign or with the line. *)
Definition classify_key (s : list Z) : line_kind :=
  let s := skip_equals s in
  let t := key_token s in
  classify_token t (drop (length t) s).

(** The kind of a line given without its newline: lines of spaces and
    tabs are blank, lines that start with a hash are comments, and the
    spaces and tabs before a key are skipped. *)
Definition classify (line : list Z) : line_kind :=
  let text := cstr line in
  if forallb whitespace text then Blank
  else if nth O text 0 =? 35 then Comment
  else classify_key (skip_blanks text).

(** What becomes of a line: it is ignored (blank or comment), skipped
    (malformed), or applied, as an assignment or as a deletion, with the
    return code of [thingy_table_delete]. *)
Inductive line_outcome : Type :=
  | Ignored
  | Skipped
  | Assigned
  | Deleted (rc : Z).

(** One line of the definition language, applied with the operations of
    the table. *)
Definition load_line (tbl : thingy_table) (line : list Z)
  : option (line_outcome * thingy_table) :=
  match classify line with
  | Blank | Comment => Some (Ignored, tbl)
  | Malformed => Some (Skipped, tbl)
  | Assigns key value =>
      r ← thingy_table_assign tbl (Z.of_nat (length key)) (Ptr key)
            (Ptr (value ++ [0]));
      Some (Assigned, snd r)
  | Deletes key =>
      r ← thingy_table_delete tbl (Z.of_nat (length key)) (Ptr key);
      Some (Deleted (fst r), snd r)
  end.


(** The lines one after the other, each on the table the previous one
    left, with the outcome of every line. *)
Fixpoint load_lines (tbl : thingy_table) (lines : list (list Z))
  : option (list line_outcome * thingy_table) :=
  match lines with
  | [] => Some ([], tbl)
  | line :: lines' =>
      r ← load_line tbl line;
      r' ← load_lines (snd r) lines';
      Some (fst r :: fst r', snd r')
  end.


(** The number of lines successfully applied: those that assigned a value
    and those that deleted an entry. *)
Fixpoint applied_count (outcomes : list line_outcome) : Z :=
  match outcomes with
  | [] => 0
  | Assigned :: outcomes' => 1 + applied_count outcomes'
  | Deleted 0 :: outcomes' => 1 + applied_count outcomes'
  | _ :: outcomes' => applied_count outcomes'
  end.

(** The bytes of a file made of the given lines, each with its newline. *)
Fixpoint join_lines (lines : list (list Z)) : list Z :=
  match lines with
  | [] => []
  | line :: lines' => line ++ 10 :: join_lines lines'
  end.


(** A line of 1023 characters: [41=] and 1020 characters of value. *)
Definition full_line : list Z := [52; 49; 61] ++ replicate 1020 120.



(** A file of six lines: a comment, an assignment, a blank line, an
    indented assignment, a deletion and a line that is not a key. *)
Definition six_lines : list (list Z) :=
  [ [35; 32; 99];             (* # c *)
    [52; 49; 61; 65];         (* 41=A *)
    [32; 9];
    [32; 32; 52; 50; 61; 66]; (* 42=B, indented *)
    [52; 49];                 (* 41 *)
    [122; 122] ].             (* zz *)

(** * The search-string parser *)

(** Modelled from the spec: the result codes of the parser.  The enum
    [parse_errors] is not among the sources; [editor.h] names three of its
    values, and the fourth is what the specification calls UnexpectedEnd. *)
Inductive parse_errors : Type :=
  | PARSE_SUCCESS
  | PARSE_INVALID_HEX
  | PARSE_INVALID_ESCAPE
  | PARSE_UNEXPECTED_END.

(** Modelled from the spec: what the parser gives back, the decoded bytes
    on success, and on failure the code and the location of the error, as
    an offset into the input. *)
Inductive parse_result : Type :=
  | Parsed (parsedstr : list Z)
  | Failed (code : parse_errors) (err_info : nat).

(** Modelled from the spec: the body of [editor_parse_search_string], which
    is in [editor.c] and not among the sources; [editor.h] declares the
    function.  The scan and the locations are those of section 4.4 of the
    specification: a character other than a backslash is emitted, a double
    backslash emits one backslash, a backslash, an x and two hex digits
    emit the byte; when one of the two characters is no hex digit the
    result is InvalidHex, located at the offending character, the first of
    the two that is no hex digit; a backslash before any other character
    is InvalidEscape, located at that character; a backslash at the end is
    UnexpectedEnd.  The specification gives no location for UnexpectedEnd
    and does not say what an input that ends inside the hex code gives:
    here such an input is UnexpectedEnd as well, located at the backslash.
    [pos] is the offset of [inputstr] in the whole input. *)
Fixpoint parse_from (pos : nat) (inputstr parsedstr : list Z)
  : parse_result :=
  match inputstr with
  | [] => Parsed parsedstr
  | c :: rest =>
      if c =? 92 then
        match rest with
        | [] => Failed PARSE_UNEXPECTED_END pos
        | e :: rest' =>
            if e =? 92 then parse_from (pos + 2) rest' (parsedstr ++ [92])
            else if e =? 120 then
              match rest' with
              | h1 :: h2 :: rest'' =>
                  if is_xdigit h1 && is_xdigit h2
                  then parse_from (pos + 4) rest''
                         (parsedstr ++ [16 * digit_value h1 + digit_value h2])
                  else Failed PARSE_INVALID_HEX
                         (if is_xdigit h1 then pos + 3 else pos + 2)
              | _ => Failed PARSE_UNEXPECTED_END pos
              end
            else Failed PARSE_INVALID_ESCAPE (pos + 1)
        end
      else parse_from (pos + 1) rest (parsedstr ++ [c])
  end.

(** Modelled from the spec: the function on a C string, scanned from its
    first character to its terminator. *)
Definition editor_parse_search_string (inputstr : list Z) : parse_result :=
  parse_from O (cstr inputstr) [].

(** * The buffer and its history *)

(** Modelled from the spec: [EditAction] of section 3.  [editor.h] holds
    only a pointer to [struct action_list], which is not among the
    sources. *)
Inductive EditAction : Type :=
  | Insert (offset : nat) (inserted_bytes : list Z)
  | Delete (offset : nat) (removed_bytes : list Z)
  | Replace (offset : nat) (old_bytes new_bytes : list Z).

(** Modelled from the spec: the editing session, with the buffer and the
    undo and redo stacks of section 3.  [contents], [dirty] and
    [undo_list] are fields of [struct editor] in [editor.h];
    [content_length] is the length of [contents]. *)
Record editor : Type := mk_editor {
  contents : list Z;
  dirty : bool;
  undo_list : list EditAction;
  redo_list : list EditAction
}.

(** Modelled from the spec: the error kinds of section 7 that the buffer
    and the history report. *)
Inductive edit_error : Type :=
  | RangeError
  | EmptyBuffer
  | NoMoreUndo
  | NoMoreRedo.

(** Modelled from the spec: [insert_at], the first of the four mutators of
    section 4.1, whose bodies are in [editor.c].  Each mutator returns the
    new contents and the action that undoes it. *)
Definition insert_at (buf : list Z) (offset : nat) (byte : Z) (after : bool)
  : edit_error + list Z * EditAction :=
  let pos := if after then S offset else offset in
  if (pos <=? length buf)%nat
  then inr (take pos buf ++ byte :: drop pos buf, Insert pos [byte])
  else inl RangeError.

(** Modelled from the spec: [delete_at], section 4.1. *)
Definition delete_at (buf : list Z) (offset : nat)
  : edit_error + list Z * EditAction :=
  match buf with
  | [] => inl EmptyBuffer
  | _ :: _ =>
      match buf !! offset with
      | None => inl RangeError
      | Some x => inr (take offset buf ++ drop (S offset) buf,
                       Delete offset [x])
      end
  end.

(** Modelled from the spec: [replace_at], section 4.1. *)
Definition replace_at (buf : list Z) (offset : nat) (byte : Z)
  : edit_error + list Z * EditAction :=
  match buf !! offset with
  | None => inl RangeError
  | Some x => inr (<[offset := byte]> buf, Replace offset [x] [byte])
  end.

(** Modelled from the spec: [increment_at], section 4.1: the byte plus
    [delta] modulo 256, recorded as a replacement. *)
Definition increment_at (buf : list Z) (offset : nat) (delta : Z)
  : edit_error + list Z * EditAction :=
  match buf !! offset with
  | None => inl RangeError
  | Some x => replace_at buf offset ((x + delta) mod 256)
  end.

(** Modelled from the spec: [record], section 4.2. *)
Definition record (e : editor) (buf : list Z) (a : EditAction) : editor :=
  {| contents := buf; dirty := true; undo_list := a :: undo_list e;
     redo_list := [] |}.

(** Modelled from the spec: a mutation as the editor performs it, named
    after the function that [editor.h] declares for it. *)
Inductive mutation : Type :=
  | editor_insert_byte_at_offset (offset : nat) (x : Z) (after : bool)
  | editor_delete_char_at_offset (offset : nat)
  | editor_replace_byte_at_offset (offset : nat) (x : Z)
  | editor_increment_byte (offset : nat) (amount : Z).

(** Modelled from the spec: the mutator is called and the action it
    returns is recorded at once (section 6). *)
Definition mutate (e : editor) (m : mutation) : edit_error + editor :=
  let r :=
    match m with
    | editor_insert_byte_at_offset offset x after =>
        insert_at (contents e) offset x after
    | editor_delete_char_at_offset offset => delete_at (contents e) offset
    | editor_replace_byte_at_offset offset x =>
        replace_at (contents e) offset x
    | editor_increment_byte offset amount =>
        increment_at (contents e) offset amount
    end in
  match r with
  | inl err => inl err
  | inr (buf, a) => inr (record e buf a)
  end.

(** Modelled from the spec: a sequence of mutations, all successful. *)
Fixpoint mutate_all (e : editor) (ms : list mutation) : edit_error + editor :=
  match ms with
  | [] => inr e
  | m :: ms' =>
      match mutate e m with
      | inl err => inl err
      | inr e' => mutate_all e' ms'
      end
  end.

(** Modelled from the spec: the structural inverse of an action, applied
    to the buffer (section 4.2: an insertion is undone by deleting the same
    span, a deletion by inserting the removed bytes at the same offset, a
    replacement by writing the old bytes back). *)
Definition apply_inverse (buf : list Z) (a : EditAction) : list Z :=
  match a with
  | Insert offset bytes => take offset buf ++ drop (offset + length bytes) buf
  | Delete offset bytes => take offset buf ++ bytes ++ drop offset buf
  | Replace offset old_bytes _ =>
      take offset buf ++ old_bytes ++ drop (offset + length old_bytes) buf
  end.

(** Modelled from the spec: [undo] of section 4.2, the body of
    [editor_undo], which [editor.h] only declares. *)
Definition editor_undo (e : editor) : edit_error + editor :=
  match undo_list e with
  | [] => inl NoMoreUndo
  | a :: undo' =>
      inr {| contents := apply_inverse (contents e) a; dirty := true;
             undo_list := undo'; redo_list := a :: redo_list e |}
  end.

(** Modelled from the spec: [n] calls of [undo], all successful. *)
Fixpoint undo_times (n : nat) (e : editor) : edit_error + editor :=
  match n with
  | O => inr e
  | S n' =>
      match editor_undo e with
      | inl err => inl err
      | inr e' => undo_times n' e'
      end
  end.

(** * Properties *)

(** ** [strdup] and [memcmp] *)

Lemma strdup_no_early_nul k : early_nul k = false -> strdup k = k.
Proof.
  induction k as [|c k IH]; [done|]. cbn [early_nul strdup].
  destruct k as [|c' k'].
  - intros _. by destruct (c =? 0) eqn:E; [apply Z.eqb_eq in E; subst|].
  - intros [Hc Hk]%orb_false_iff. rewrite Hc. by rewrite IH.
Qed.

Lemma strdup_length k : (length (strdup k) <= length k)%nat.
Proof.
  induction k as [|c k IH]; [done|]. cbn. destruct (c =? 0); cbn; lia.
Qed.

Lemma strdup_is_prefix k : strdup k `prefix_of` k.
Proof.
  induction k as [|c k IH]; [done|]. cbn. destruct (c =? 0) eqn:E.
  - apply Z.eqb_eq in E. subst. by apply prefix_cons, prefix_nil.
  - by apply prefix_cons.
Qed.

Lemma memcmp_swap a b n : memcmp b a n = Z.opp <$> memcmp a b n.
Proof.
  revert a b. induction n as [|n IH]; intros a b; [done|].
  destruct a as [|x a], b as [|y b]; try done. cbn.
  rewrite (Z.eqb_sym y x). destruct (x =? y); [apply IH|].
  cbn. f_equal. lia.
Qed.

Lemma memcmp_zero_swap a b n : memcmp a b n = Some 0 -> memcmp b a n = Some 0.
Proof. intros H. by rewrite memcmp_swap, H. Qed.

Lemma memcmp_zero_take a b n :
  memcmp a b n = Some 0 ->
  take n a = take n b /\ (n <= length a)%nat /\ (n <= length b)%nat.
Proof.
  revert a b. induction n as [|n IH]; intros a b; [cbn; auto with lia|].
  destruct a as [|x a], b as [|y b]; try done. cbn.
  destruct (x =? y) eqn:E.
  - apply Z.eqb_eq in E. subst. intros [-> ?]%IH. auto with lia.
  - intros [= H]. apply Z.eqb_neq in E. lia.
Qed.

Lemma memcmp_self k : memcmp k k (length k) = Some 0.
Proof. induction k as [|c k IH]; [done|]. cbn. by rewrite Z.eqb_refl. Qed.

(** A copy made by [strdup] never differs from its original: the comparison
    finds them equal or runs past the end of the copy. *)
Lemma memcmp_strdup_self k n r :
  memcmp (strdup k) k n = Some r -> r = 0.
Proof.
  revert n. induction k as [|c k IH]; intros n.
  - destruct n; cbn; intros; congruence.
  - destruct n as [|n]; [cbn; intros; congruence|]. cbn [strdup].
    destruct (c =? 0) eqn:E.
    + apply Z.eqb_eq in E. subst c. cbn [memcmp]. rewrite Z.eqb_refl.
      destruct n; cbn; intros; congruence.
    + cbn [memcmp]. rewrite Z.eqb_refl. apply IH.
Qed.

(** Against a key without an early NUL every comparison with a stored copy
    of the same length has a result. *)
Lemma memcmp_strdup_defined k' k :
  length k' = length k -> early_nul k = false ->
  is_Some (memcmp (strdup k') k (length k)).
Proof.
  revert k'. induction k as [|c k IH]; intros k' Hl Hk; [by eexists|].
  destruct k' as [|c' k']; [done|]. cbn [strdup length memcmp].
  injection Hl as Hl. cbn [early_nul] in Hk.
  destruct (c' =? 0) eqn:E.
  - apply Z.eqb_eq in E. subst c'. destruct (0 =? c) eqn:Ec; [|by eexists].
    apply Z.eqb_eq in Ec. subst c. destruct k; [by eexists|done].
  - destruct (c' =? c); [|by eexists]. apply IH; [done|].
    destruct k; [done|]. by apply orb_false_iff in Hk as [_ ?].
Qed.

(** A stored copy that compares equal to a key of its length is that key. *)
Lemma memcmp_zero_strdup k' k :
  length k' = length k -> memcmp k (strdup k') (length k) = Some 0 ->
  strdup k' = k.
Proof.
  intros Hl [Ht [_ Hn]]%memcmp_zero_take.
  assert (length (strdup k') = length k') as Hf.
  { pose proof (strdup_length k'). lia. }
  rewrite take_ge in Ht by lia. rewrite take_ge in Ht by lia. done.
Qed.

(** ** The chain loops *)

Lemma node_wf_mono lk lk' b n : lk <= lk' -> node_wf lk b n -> node_wf lk' b n.
Proof. intros ? [? ?]. split; [lia|done]. Qed.

(** What [assign_chain] does to the stored keys: a replacement leaves them
    as they are, and a new node comes last. *)
Lemma assign_chain_ids c len k value c' added :
  assign_chain c len k value = Some (c', added) ->
  if added
  then map node_id (nodes c') = map node_id (nodes c) ++ [(len, strdup k)]
  else map node_id (nodes c') = map node_id (nodes c) /\
       exists n, n ∈ nodes c /\ linked_list.length n = len.
Proof.
  revert c' added. induction c as [| |n c IH]; intros c' added; cbn; [|done|].
  - destruct (strdup_ptr value); [|done]. by intros [= <- <-].
  - destruct (linked_list.length n =? len) eqn:El.
    + apply Z.eqb_eq in El.
      destruct (memcmp (linked_list.key n) k (Z.to_nat len)) as [r|] eqn:Em;
        [|done]. cbn.
      destruct (r =? 0) eqn:Er.
      * destruct (strdup_ptr value); [|done]. intros [= <- <-]. cbn.
        split; [done|]. exists n. split; [left|done].
      * destruct (assign_chain c len k value) as [[c1 a1]|]; [|done].
        intros [= <- <-]. specialize (IH _ _ eq_refl). cbn [nodes map].
        destruct a1.
        -- by rewrite IH.
        -- destruct IH as [-> (m & ? & ?)]. split; [done|].
           exists m. split; [by right|done].
    + destruct (assign_chain c len k value) as [[c1 a1]|]; [|done].
      intros [= <- <-]. specialize (IH _ _ eq_refl). cbn [nodes map].
      destruct a1.
      * by rewrite IH.
      * destruct IH as [-> (m & ? & ?)]. split; [done|].
        exists m. split; [by right|done].
Qed.

Lemma assign_chain_wf lk b c len k value c' added :
  Forall (node_wf lk b) (nodes c) -> 2 <= len <= lk ->
  length k = Z.to_nat len -> k !! O = Some b ->
  assign_chain c len k value = Some (c', added) ->
  Forall (node_wf lk b) (nodes c').
Proof.
  intros Hc Hlen Hk Hb. revert Hc c' added.
  induction c as [| |n c IH]; intros Hc c' added; cbn; [|done|].
  - destruct (strdup_ptr value); [|done]. intros [= <- <-].
    repeat constructor; cbn; [lia..|]. by exists k.
  - cbn in Hc. apply Forall_cons_1 in Hc as [Hn Hc].
    destruct (linked_list.length n =? len) eqn:El.
    + destruct (memcmp (linked_list.key n) k (Z.to_nat len)) as [r|];
        [|done]. cbn.
      destruct (r =? 0).
      * destruct (strdup_ptr value); [|done]. intros [= <- <-].
        constructor; done.
      * destruct (assign_chain c len k value) as [[c1 a1]|]; [|done].
        intros [= <- <-]. constructor; eauto.
    + destruct (assign_chain c len k value) as [[c1 a1]|]; [|done].
      intros [= <- <-]. constructor; eauto.
Qed.

(** After [assign], the loop of [search] finds the value, when the key is
    one that [strdup] copies whole. *)
Lemma assign_chain_search c len k v c' added :
  length k = Z.to_nat len -> early_nul k = false ->
  assign_chain c len k (Ptr v) = Some (c', added) ->
  search_chain c' len k = Some (Ptr (strdup v)).
Proof.
  intros Hk Hg. revert c' added.
  induction c as [| |n c IH]; intros c' added; cbn; [|done|].
  - intros [= <- <-]. cbn. rewrite Z.eqb_refl. rewrite (strdup_no_early_nul k Hg).
    rewrite <- Hk, memcmp_self. done.
  - destruct (linked_list.length n =? len) eqn:El.
    + destruct (memcmp (linked_list.key n) k (Z.to_nat len)) as [r|] eqn:Em;
        [|done]. cbn.
      destruct (r =? 0) eqn:Er.
      * intros [= <- <-]. cbn. rewrite El, memcmp_swap, Em. cbn.
        apply Z.eqb_eq in Er. subst r. done.
      * destruct (assign_chain c len k (Ptr v)) as [[c1 a1]|]; [|done].
        intros [= <- <-]. cbn. rewrite El, memcmp_swap, Em. cbn.
        apply Z.eqb_neq in Er.
        destruct (- r =? 0) eqn:Er'; [apply Z.eqb_eq in Er'; lia|]. eauto.
    + destruct (assign_chain c len k (Ptr v)) as [[c1 a1]|]; [|done].
      intros [= <- <-]. cbn. rewrite El. eauto.
Qed.

(** Where [search] finds an entry, [delete] finds it too. *)
Lemma search_chain_delete c len k v :
  search_chain c len k = Some (Ptr v) ->
  exists c', delete_chain c len k = Some (Ptr c').
Proof.
  induction c as [| |n c IH]; cbn; [done..|].
  destruct (linked_list.length n =? len).
  - destruct (memcmp k (linked_list.key n) (Z.to_nat len)) as [r|]; [|done].
    cbn. destruct (r =? 0); [by eexists|].
    intros [c' ->]%IH. by eexists.
  - intros [c' ->]%IH. by eexists.
Qed.

(** [delete_chain] leaves nodes that were there. *)
Lemma delete_chain_wf lk b c len k c' :
  Forall (node_wf lk b) (nodes c) ->
  delete_chain c len k = Some (Ptr c') ->
  Forall (node_wf lk b) (nodes c').
Proof.
  revert c'. induction c as [| |n c IH]; intros c'; cbn; [done..|].
  intros [Hn Hc]%Forall_cons_1.
  destruct (linked_list.length n =? len).
  - destruct (memcmp k (linked_list.key n) (Z.to_nat len)) as [r|]; [|done].
    cbn. destruct (r =? 0); [by intros [= <-]|].
    destruct (delete_chain c len k) as [[|c1]|]; cbn; [done| |done].
    intros [= <-]. cbn. constructor; [done|by apply IH].
  - destruct (delete_chain c len k) as [[|c1]|]; cbn; [done| |done].
    intros [= <-]. cbn. constructor; [done|by apply IH].
Qed.

(** ** The table operations keep the invariant *)

Lemma longest_key_raise tbl len :
  longest_key (raise_longest_key tbl len) = Z.max (longest_key tbl) len.
Proof.
  unfold raise_longest_key. destruct (longest_key tbl <? len) eqn:E; cbn.
  - apply Z.ltb_lt in E. lia.
  - apply Z.ltb_ge in E. lia.
Qed.

Lemma values_raise tbl len : values (raise_longest_key tbl len) = values tbl.
Proof. unfold raise_longest_key. by destruct (longest_key tbl <? len). Qed.

Lemma mbseqs_raise tbl len : mbseqs (raise_longest_key tbl len) = mbseqs tbl.
Proof. unfold raise_longest_key. by destruct (longest_key tbl <? len). Qed.

Lemma upd_same {A} (f : Z -> A) i x : upd f i x i = x.
Proof. unfold upd. by rewrite Z.eqb_refl. Qed.

Lemma upd_other {A} (f : Z -> A) i j x : j <> i -> upd f i x j = f j.
Proof. unfold upd. intros H. by destruct (j =? i) eqn:E; [apply Z.eqb_eq in E|]. Qed.

Lemma wf_init : wf thingy_table_init.
Proof. split; cbn; [lia|done|]. intros b. constructor. Qed.

(** [assign] leaves [longest_key] at the larger of its old value and the
    length of the key.  In the branch that replaces a value and returns
    without looking at [longest_key], the matching node shows that the
    length was within it. *)
Lemma assign_longest_key tbl len key value rc tbl' :
  wf tbl -> 0 <= len ->
  thingy_table_assign tbl len key value = Some (rc, tbl') ->
  longest_key tbl' = Z.max (longest_key tbl) len.
Proof.
  intros Hwf Hlen. unfold thingy_table_assign.
  destruct (len =? 0) eqn:E0.
  { apply Z.eqb_eq in E0. intros [= _ <-]. pose proof (wf_range _ Hwf). lia. }
  destruct (len =? 1) eqn:E1.
  - destruct (deref key) as [k|]; [|done]. cbn.
    destruct (k !! O) as [k0|]; [|done]. cbn.
    destruct (values tbl k0), (strdup_ptr value); try done;
      intros [= _ <-]; by rewrite longest_key_raise.
  - destruct (deref key) as [k|]; [|done]. cbn.
    destruct (k !! O) as [k0|]; [|done]. cbn.
    destruct (assign_chain (mbseqs tbl k0) len k value) as [[c' added]|] eqn:Ea;
      [|done].
    intros [= _ <-]. apply assign_chain_ids in Ea. destruct added.
    + by rewrite longest_key_raise.
    + cbn. destruct Ea as [_ (n & Hn & Hl)].
      pose proof (wf_nodes _ Hwf k0) as Hc.
      rewrite Forall_forall in Hc. destruct (Hc _ Hn) as [? _]. lia.
Qed.

(** Without the invariant: [assign] does not lower [longest_key]. *)
Lemma assign_longest_key_le tbl len key value rc tbl' :
  thingy_table_assign tbl len key value = Some (rc, tbl') ->
  longest_key tbl <= longest_key tbl'.
Proof.
  unfold thingy_table_assign.
  destruct (len =? 0); [intros [= _ <-]; lia|].
  destruct (len =? 1).
  - destruct (deref key) as [k|]; [|done]. cbn.
    destruct (k !! O) as [k0|]; [|done]. cbn.
    destruct (values tbl k0), (strdup_ptr value); try done;
      intros [= _ <-]; rewrite longest_key_raise; cbn; lia.
  - destruct (deref key) as [k|]; [|done]. cbn.
    destruct (k !! O) as [k0|]; [|done]. cbn.
    destruct (assign_chain (mbseqs tbl k0) len k value) as [[c' added]|];
      [|done].
    intros [= _ <-]. destruct added; [rewrite longest_key_raise|]; cbn; lia.
Qed.

Lemma assign_wf tbl len k value rc tbl' :
  wf tbl -> 0 <= len <= 255 -> length k = Z.to_nat len ->
  thingy_table_assign tbl len (Ptr k) value = Some (rc, tbl') ->
  wf tbl'.
Proof.
  intros Hwf Hlen Hk. unfold thingy_table_assign.
  destruct (len =? 0) eqn:E0; [by intros [= _ <-]|].
  apply Z.eqb_neq in E0. cbn [deref mbind option_bind].
  destruct (k !! O) as [k0|] eqn:Ek0; [|by destruct (len =? 1)]. cbn.
  destruct (len =? 1) eqn:E1.
  - assert (forall v,
      wf (raise_longest_key (set_value tbl k0 (Ptr v)) len)) as Hset.
    { intros v. destruct Hwf as [Hr Hv Hn]. split.
      - rewrite longest_key_raise. cbn. lia.
      - intros b w _. rewrite longest_key_raise. cbn. lia.
      - intros b. rewrite longest_key_raise, mbseqs_raise. cbn.
        eapply Forall_impl; [apply Hn|]. intros n. apply node_wf_mono. lia. }
    destruct (values tbl k0), (strdup_ptr value); try done;
      intros [= _ <-]; apply Hset.
  - apply Z.eqb_neq in E1.
    destruct (assign_chain (mbseqs tbl k0) len k value) as [[c' added]|] eqn:Ea;
      [|done].
    intros [= _ <-]. pose proof (assign_chain_ids _ _ _ _ _ _ Ea) as Hids.
    destruct Hwf as [Hr Hv Hn].
    assert (exists lk', longest_key tbl <= lk' <= 255 /\ len <= lk' /\
      longest_key (if added
                   then raise_longest_key (set_chain tbl k0 c') len
                   else set_chain tbl k0 c') = lk') as (lk' & Hlk & Hle & Hlk').
    { destruct added.
      - exists (Z.max (longest_key tbl) len). rewrite longest_key_raise.
        cbn. lia.
      - destruct Hids as [_ (n & Hin & Hl)]. specialize (Hn k0).
        rewrite Forall_forall in Hn. destruct (Hn _ Hin) as [? _].
        exists (longest_key tbl). cbn. lia. }
    assert (Forall (node_wf lk' k0) (nodes c')) as Hc'.
    { apply (assign_chain_wf lk' k0 (mbseqs tbl k0) len k value c' added);
        [|lia|done..].
      eapply Forall_impl; [apply Hn|]. intros n. apply node_wf_mono. lia. }
    assert (values (if added
                    then raise_longest_key (set_chain tbl k0 c') len
                    else set_chain tbl k0 c') = values tbl) as Hval.
    { destruct added; [rewrite values_raise|]; done. }
    assert (mbseqs (if added
                    then raise_longest_key (set_chain tbl k0 c') len
                    else set_chain tbl k0 c') = upd (mbseqs tbl) k0 c') as Hmb.
    { destruct added; [rewrite mbseqs_raise|]; done. }
    split; rewrite ?Hlk', ?Hval, ?Hmb.
    + lia.
    + intros b v H%Hv. lia.
    + intros b. destruct (decide (b = k0)) as [->|Hne].
      * by rewrite upd_same.
      * rewrite upd_other by done.
        eapply Forall_impl; [apply Hn|]. intros n. apply node_wf_mono. lia.
Qed.

Lemma delete_longest_key tbl len key rc tbl' :
  thingy_table_delete tbl len key = Some (rc, tbl') ->
  longest_key tbl' = longest_key tbl.
Proof.
  unfold thingy_table_delete. destruct key as [|k]; [by intros [= _ <-]|].
  destruct (len =? 0); [by intros [= _ <-]|].
  destruct (len >? longest_key tbl); [by intros [= _ <-]|].
  destruct (k !! O) as [k0|]; [|by destruct (len =? 1)]. cbn.
  destruct (len =? 1).
  - destruct (values tbl k0); by intros [= _ <-].
  - destruct (delete_chain (mbseqs tbl k0) len k) as [[|c']|]; [| |done];
      by intros [= _ <-].
Qed.

Lemma delete_wf tbl len key rc tbl' :
  wf tbl -> thingy_table_delete tbl len key = Some (rc, tbl') -> wf tbl'.
Proof.
  intros Hwf. unfold thingy_table_delete.
  destruct key as [|k]; [by intros [= _ <-]|].
  destruct (len =? 0); [by intros [= _ <-]|].
  destruct (len >? longest_key tbl); [by intros [= _ <-]|].
  destruct (k !! O) as [k0|]; [|by destruct (len =? 1)]. cbn.
  destruct Hwf as [Hr Hv Hn].
  destruct (len =? 1).
  - destruct (values tbl k0) eqn:Ev; intros [= _ <-]; [done|].
    split; cbn; [done| |done]. intros b v. unfold upd.
    destruct (b =? k0); [done|]. apply Hv.
  - destruct (delete_chain (mbseqs tbl k0) len k) as [[|c']|] eqn:Ec;
      [| |done]; intros [= _ <-]; [done|].
    pose proof (delete_chain_wf _ _ _ _ _ _ (Hn k0) Ec) as Hn'.
    split; cbn; [done..|]. intros b.
    destruct (decide (b = k0)) as [->|Hne];
      [by rewrite upd_same|by rewrite upd_other].
Qed.

(** ** Reading a definition line *)

Lemma add_from_string_unfold tbl string :
  thingy_table_add_from_string tbl string =
  match strtok (Ptr (strdup string)) (lit "=") [] with
  | (NULL, _) => Some (1, tbl)
  | (Ptr key_hex, save) => after_strtok tbl key_hex save
  end.
Proof. reflexivity. Qed.

Lemma hex_digit_cases c :
  hex_digit c -> 48 <= c <= 57 \/ 65 <= c <= 70 \/ 97 <= c <= 102.
Proof.
  unfold hex_digit, in_set.
  change (cstr hex_digits) with
    [48; 49; 50; 51; 52; 53; 54; 55; 56; 57; 65; 66; 67; 68; 69; 70;
     97; 98; 99; 100; 101; 102].
  rewrite existsb_exists. intros (x & Hin & ->%Z.eqb_eq).
  cbn in Hin. intuition lia.
Qed.

Lemma strdup_app h r :
  Forall (fun c => c <> 0) h -> strdup (h ++ r) = h ++ strdup r.
Proof.
  induction 1 as [|c h Hc _ IH]; [done|]. cbn.
  destruct (c =? 0) eqn:E; [by apply Z.eqb_eq in E|]. by rewrite IH.
Qed.

Lemma cstr_app h r :
  Forall (fun c => c <> 0) h -> cstr (h ++ r) = h ++ cstr r.
Proof.
  induction 1 as [|c h Hc _ IH]; [done|]. cbn.
  destruct (c =? 0) eqn:E; [by apply Z.eqb_eq in E|]. by rewrite IH.
Qed.

Lemma cstr_strdup s : cstr (strdup s) = cstr s.
Proof.
  induction s as [|c s IH]; [done|]. cbn. destruct (c =? 0) eqn:E; cbn.
  - done.
  - by rewrite E, IH.
Qed.

Lemma cstr_nonzero L : Forall (fun c => c <> 0) (cstr L).
Proof.
  induction L as [|c L IH]; [constructor|]. cbn.
  destruct (c =? 0) eqn:E; [constructor|]. apply Z.eqb_neq in E.
  by constructor.
Qed.

Lemma strspn_app h r accept :
  Forall (fun c => c <> 0 /\ in_set c accept = true) h ->
  strspn (h ++ r) accept = (length h + strspn r accept)%nat.
Proof.
  induction 1 as [|c h [Hc Hin] _ IH]; [done|]. cbn.
  destruct (c =? 0) eqn:E; [by apply Z.eqb_eq in E|]. rewrite Hin. cbn.
  by rewrite IH.
Qed.

Lemma strcspn_app h r reject :
  Forall (fun c => c <> 0 /\ in_set c reject = false) h ->
  strcspn (h ++ r) reject = (length h + strcspn r reject)%nat.
Proof.
  induction 1 as [|c h [Hc Hin] _ IH]; [done|]. cbn.
  destruct (c =? 0) eqn:E; [by apply Z.eqb_eq in E|]. rewrite Hin. cbn.
  by rewrite IH.
Qed.

Lemma lit_equals : lit "=" = [61; 0].
Proof. reflexivity. Qed.

Lemma lit_empty : lit "" = [0].
Proof. reflexivity. Qed.

Lemma token_char_nonzero t : Forall token_char t -> Forall (fun c => c <> 0) t.
Proof. intros H. eapply Forall_impl; [exact H|]. by intros c [? ?]. Qed.

Lemma token_char_reject t :
  Forall token_char t ->
  Forall (fun c => c <> 0 /\ in_set c (lit "=") = false) t.
Proof.
  intros H. eapply Forall_impl; [exact H|]. intros c [? ?]. split; [done|].
  rewrite lit_equals. unfold in_set. cbn.
  rewrite orb_false_r. by apply Z.eqb_neq.
Qed.

Lemma hex_digit_token h : Forall hex_digit h -> Forall token_char h.
Proof.
  intros H. eapply Forall_impl; [exact H|].
  intros c Hc%hex_digit_cases. unfold token_char. lia.
Qed.

Lemma strcspn_after_key rest : after_key rest -> strcspn (strdup rest) (lit "=") = O.
Proof.
  rewrite lit_equals. destruct rest as [|c rest]; [done|].
  cbn. intros [->| ->]; done.
Qed.

(** The first [strtok] call on a line that starts with the token [t]. *)
Lemma strtok_token t rest :
  Forall token_char t -> t <> [] -> after_key rest ->
  strtok (Ptr (strdup (t ++ rest))) (lit "=") [] =
  (Ptr (t ++ [0]), save_after rest).
Proof.
  intros Ht Hne Hr. unfold strtok.
  rewrite strdup_app by by apply token_char_nonzero.
  assert (strspn (t ++ strdup rest) (lit "=") = O) as ->.
  { rewrite lit_equals. destruct Ht as [|c t [Hc0 Hc] _]; [done|].
    unfold in_set. cbn. destruct (c =? 0) eqn:E0; [done|].
    destruct (c =? 61) eqn:E; [by apply Z.eqb_eq in E|done]. }
  rewrite drop_0, cstr_app by by apply token_char_nonzero.
  destruct t as [|c t]; [done|]. cbn [app].
  change (c :: t ++ strdup rest) with ((c :: t) ++ strdup rest).
  rewrite strcspn_app by by apply token_char_reject.
  rewrite strcspn_after_key by done. rewrite Nat.add_0_r.
  by rewrite take_app_length, drop_app_length.
Qed.

(** The second [strtok] call, with the empty set of delimiters. *)
Lemma strspn_empty s : strspn s (lit "") = O.
Proof. rewrite lit_empty. destruct s; [done|]. cbn. by rewrite andb_false_r. Qed.

Lemma strcspn_empty s : strcspn s (lit "") = length (cstr s).
Proof.
  rewrite lit_empty. induction s as [|c s IH]; [done|]. cbn.
  rewrite orb_false_r. destruct (c =? 0); [done|]. cbn. by rewrite IH.
Qed.

Lemma take_cstr s : take (length (cstr s)) s = cstr s.
Proof.
  induction s as [|c s IH]; [done|]. cbn. destruct (c =? 0); [done|].
  cbn. by rewrite IH.
Qed.

Lemma strtok_rest save :
  fst (strtok NULL (lit "") save) =
  match cstr save with
  | [] => NULL
  | _ :: _ => Ptr (cstr save ++ [0])
  end.
Proof.
  unfold strtok. rewrite strspn_empty, drop_0, strcspn_empty.
  destruct (cstr save) eqn:E; [done|]. cbn [fst]. by rewrite <- E, take_cstr.
Qed.

Lemma cstr_save_after_eq rest : cstr (save_after (61 :: rest)) = cstr rest.
Proof. unfold save_after. cbn. apply cstr_strdup. Qed.

Lemma hex_digit_accept h :
  Forall hex_digit h ->
  Forall (fun c => c <> 0 /\ in_set c hex_digits = true) h.
Proof.
  intros H. eapply Forall_impl; [exact H|]. intros c Hc. split; [|done].
  apply hex_digit_cases in Hc. lia.
Qed.

Lemma strspn_hex h : Forall hex_digit h -> strspn (h ++ [0]) hex_digits = length h.
Proof.
  intros H. rewrite strspn_app by by apply hex_digit_accept. cbn. lia.
Qed.

Lemma strlen_hex h : Forall hex_digit h -> strlen (h ++ [0]) = length h.
Proof.
  intros H. unfold strlen. rewrite cstr_app.
  - cbn. by rewrite app_nil_r.
  - by apply token_char_nonzero, hex_digit_token.
Qed.

Lemma hex_key_app h r : hex_key (h ++ r) (length h) = hex_key h (length h).
Proof. unfold hex_key. by rewrite take_app_length, firstn_all. Qed.

Lemma hex_loop_length kp i n key : length (hex_loop kp i n key) = length key.
Proof.
  revert i key. induction kp as [|c kp IH]; intros i key; [done|].
  cbn. by rewrite IH, length_alter.
Qed.

Lemma hex_key_length kp n : length (hex_key kp n) = ((n + 1) / 2)%nat.
Proof. unfold hex_key. by rewrite hex_loop_length, length_replicate. Qed.

(** A line that starts with a hex key: the key is deleted when nothing
    follows it, and assigned what follows the equals sign otherwise. *)
Lemma after_strtok_hex tbl h save :
  Forall hex_digit h -> h <> [] ->
  after_strtok tbl (h ++ [0]) save =
  let keylen := ((length h + 1) / 2)%nat in
  if (255 <? keylen)%nat then Some (4, tbl)
  else
    let key := hex_key h (length h) in
    match cstr save with
    | [] =>
        r ← thingy_table_delete tbl (Z.of_nat keylen) (Ptr key);
        Some (16 + fst r, snd r)
    | _ :: _ =>
        r ← thingy_table_assign tbl (Z.of_nat keylen) (Ptr key)
              (Ptr (cstr save ++ [0]));
        Some (0, snd r)
    end.
Proof.
  intros Hh Hne. unfold after_strtok.
  destruct h as [|c h]; [done|].
  assert (nth O ((c :: h) ++ [0]) 0 = c) as -> by done.
  assert ((c =? 47) = false) as ->.
  { apply Z.eqb_neq. apply Forall_cons_1 in Hh as [Hc%hex_digit_cases _]. lia. }
  assert ((c =? 42) = false) as ->.
  { apply Z.eqb_neq. apply Forall_cons_1 in Hh as [Hc%hex_digit_cases _]. lia. }
  rewrite strspn_hex, strlen_hex, Nat.eqb_refl by done. cbn [negb].
  rewrite hex_key_app.
  assert (((length (c :: h) + 1) / 2 =? 0)%nat = false) as ->.
  { apply Nat.eqb_neq. cbn [length].
    pose proof (Nat.div_str_pos (S (length h) + 1) 2). lia. }
  cbv zeta. destruct (255 <? _)%nat; [done|].
  pose proof (strtok_rest save) as Hv.
  destruct (strtok NULL (lit "") save) as [value save']. cbn [fst] in Hv.
  subst value. by destruct (cstr save).
Qed.

(** A line that starts with a slash or a star. *)
Lemma after_strtok_prefixed tbl p h save :
  Forall hex_digit h -> p = 47 \/ p = 42 ->
  after_strtok tbl (p :: h ++ [0]) save =
  let keylen := ((length h + 1) / 2)%nat in
  if (keylen =? 0)%nat then Some (3, tbl)
  else if (255 <? keylen)%nat then Some (4, tbl)
  else
    r ← thingy_table_assign tbl (Z.of_nat keylen)
          (Ptr (hex_key h (length h)))
          (Ptr (if p =? 47 then [10; 0] else [0; 0]));
    Some (0, snd r).
Proof.
  intros Hh Hp. unfold after_strtok. cbn [nth drop].
  assert (exists v, (if p =? 47 then [10; 0] else [0; 0]) = v /\
    (let (value, key_pointer) :=
       if p =? 47 then (Ptr [10; 0], h ++ [0]) else (NULL, p :: h ++ [0]) in
     if p =? 42 then (Ptr [0; 0], h ++ [0]) else (value, key_pointer)) =
    (Ptr v, h ++ [0])) as (v & -> & Hlet).
  { destruct Hp as [-> | ->]; cbn; eauto. }
  destruct (if p =? 47 then _ else _) as [value key_pointer].
  destruct (if p =? 42 then _ else _) as [value' key_pointer'].
  injection Hlet as -> ->.
  rewrite strspn_hex, strlen_hex, Nat.eqb_refl by done. cbn [negb].
  by rewrite hex_key_app.
Qed.

(** A line changes the table through one call of [assign] or [delete], with
    a key of [keylen] bytes, or not at all. *)
Lemma add_from_string_step tbl string rc tbl' :
  thingy_table_add_from_string tbl string = Some (rc, tbl') ->
  (tbl' = tbl /\ 1 <= rc <= 4) \/
  (exists len k value rc0, 1 <= len <= 255 /\ length k = Z.to_nat len /\
     thingy_table_assign tbl len (Ptr k) value = Some (rc0, tbl') /\
     rc = 0) \/
  (exists len k rc0, 1 <= len <= 255 /\ length k = Z.to_nat len /\
     thingy_table_delete tbl len (Ptr k) = Some (rc0, tbl') /\
     rc = 16 + rc0).
Proof.
  rewrite add_from_string_unfold.
  destruct (strtok _ _ _) as [[|key_hex] save];
    [intros [= <- <-]; left; split; [done|lia]|].
  unfold after_strtok.
  assert (forall value key_pointer,
    (let keylen_hex := strspn key_pointer hex_digits in
     if negb (keylen_hex =? strlen key_pointer)%nat then Some (2, tbl)
     else
       let keylen := ((keylen_hex + 1) / 2)%nat in
       if (keylen =? 0)%nat then Some (3, tbl)
       else if (255 <? keylen)%nat then Some (4, tbl)
       else
         let key := hex_key key_pointer keylen_hex in
         match value with
         | Ptr _ =>
             r ← thingy_table_assign tbl (Z.of_nat keylen) (Ptr key) value;
             Some (0, snd r)
         | NULL =>
             let (value, _) := strtok NULL (lit "") save in
             match value with
             | NULL =>
                 r ← thingy_table_delete tbl (Z.of_nat keylen) (Ptr key);
                 Some (16 + fst r, snd r)
             | Ptr _ =>
                 r ← thingy_table_assign tbl (Z.of_nat keylen) (Ptr key)
                       value;
                 Some (0, snd r)
             end
         end) = Some (rc, tbl') ->
    (tbl' = tbl /\ 1 <= rc <= 4) \/
    (exists len k value rc0, 1 <= len <= 255 /\ length k = Z.to_nat len /\
       thingy_table_assign tbl len (Ptr k) value = Some (rc0, tbl') /\
       rc = 0) \/
    (exists len k rc0, 1 <= len <= 255 /\ length k = Z.to_nat len /\
       thingy_table_delete tbl len (Ptr k) = Some (rc0, tbl') /\
       rc = 16 + rc0)) as Hbody.
  { intros value key_pointer. cbv zeta.
    set (n := strspn key_pointer hex_digits).
    destruct (negb _); [intros [= <- <-]; left; split; [done|lia]|].
    destruct (_ =? 0)%nat eqn:E0; [intros [= <- <-]; left; split; [done|lia]|].
    destruct (255 <? _)%nat eqn:E255;
      [intros [= <- <-]; left; split; [done|lia]|].
    apply Nat.eqb_neq in E0. apply Nat.ltb_ge in E255.
    assert (1 <= Z.of_nat ((n + 1) / 2) <= 255) as Hlen by lia.
    assert (length (hex_key key_pointer n) =
            Z.to_nat (Z.of_nat ((n + 1) / 2))) as Hk.
    { rewrite hex_key_length. lia. }
    destruct value as [|v].
    - destruct (strtok NULL (lit "") save) as [[|v] ?].
      + destruct (thingy_table_delete _ _ _) as [[rc0 t0]|] eqn:Ed; [|done].
        cbn. intros [= <- <-]. right. right. eauto 10.
      + destruct (thingy_table_assign _ _ _ _) as [[rc0 t0]|] eqn:Ed; [|done].
        cbn. intros [= <- <-]. right. left. eauto 10.
    - destruct (thingy_table_assign _ _ _ _) as [[rc0 t0]|] eqn:Ed; [|done].
      cbn. intros [= <- <-]. right. left. eauto 10. }
  destruct (nth O key_hex 0 =? 47), (nth O key_hex 0 =? 42).
  - exact (Hbody (Ptr [0; 0]) (drop 1 key_hex)).
  - exact (Hbody (Ptr [10; 0]) (drop 1 key_hex)).
  - exact (Hbody (Ptr [0; 0]) (drop 1 key_hex)).
  - exact (Hbody NULL key_hex).
Qed.

Lemma add_from_string_wf tbl string rc tbl' :
  wf tbl -> thingy_table_add_from_string tbl string = Some (rc, tbl') ->
  wf tbl'.
Proof.
  intros Hwf
    [[-> _]|[(len & k & v & rc0 & ? & ? & H & _)|(len & k & rc0 & ? & ? & H & _)]]
    %add_from_string_step; [done| |].
  - eapply assign_wf; [done| |done..]. lia.
  - eapply delete_wf; done.
Qed.

Lemma add_from_file_loop_wf fuel tbl file count tbl' count' :
  wf tbl -> add_from_file_loop fuel tbl file count = Some (tbl', count') ->
  wf tbl'.
Proof.
  revert tbl file count. induction fuel as [|fuel IH]; intros tbl file count;
    [done|]. cbn [add_from_file_loop].
  intros Hwf. destruct (fgets 1024 file) as [[|buf] rest];
    [by intros [= <- _]|].
  destruct (add_from_file_step tbl count buf) as [[t1 c1]|] eqn:Es; [|done].
  cbn. apply IH. unfold add_from_file_step in Es.
  destruct (nth O (skip_whitespace _) 0 =? 0); [by injection Es as <- _|].
  destruct (nth O (erase_final_newline buf) 0 =? 35);
    [by injection Es as <- _|].
  destruct (thingy_table_add_from_string _ _) as [[rc0 t0]|] eqn:Ea; [|done].
  cbn in Es. apply add_from_string_wf in Ea; [|done].
  by destruct (rc0 =? 0); injection Es as <- _.
Qed.

Lemma add_from_file_wf tbl file o rc tbl' o' :
  wf tbl -> thingy_table_add_from_file tbl file o = Some (rc, tbl', o') ->
  wf tbl'.
Proof.
  intros Hwf. unfold thingy_table_add_from_file.
  destruct file as [|file]; [by intros [= _ <- _]|].
  destruct (add_from_file_loop _ _ _ _) as [[t1 c1]|] eqn:El; [|done].
  cbn. intros [= _ <- _]. by eapply add_from_file_loop_wf.
Qed.

(** Every reachable table satisfies the invariant. *)
Lemma reachable_wf tbl : reachable tbl -> wf tbl.
Proof.
  induction 1.
  - apply wf_init.
  - by eapply assign_wf.
  - by eapply delete_wf.
  - by eapply add_from_string_wf.
  - by eapply add_from_file_wf.
Qed.

(** ** Assign, search and delete on one key *)

(** [assign] on a one-byte key and on a longer key whose chain is [NULL]
    returns without a test of a [next]. *)
Lemma assign_one_byte tbl k k0 v :
  k !! O = Some k0 ->
  thingy_table_assign tbl 1 (Ptr k) (Ptr v) =
  Some (0, raise_longest_key (set_value tbl k0 (Ptr (strdup v))) 1).
Proof.
  intros Hk0. unfold thingy_table_assign. cbn. rewrite Hk0. cbn.
  by destruct (values tbl k0).
Qed.

Lemma assign_fresh tbl len k k0 v :
  2 <= len -> k !! O = Some k0 -> mbseqs tbl k0 = chain_NULL ->
  thingy_table_assign tbl len (Ptr k) (Ptr v) =
  Some (0, raise_longest_key
             (set_chain tbl k0
                (chain_node (linked_list.mk len (strdup k) (strdup v))
                            chain_unwritten)) len).
Proof.
  intros Hlen Hk0 Hc. unfold thingy_table_assign.
  destruct (len =? 0) eqn:E0; [apply Z.eqb_eq in E0; lia|].
  destruct (len =? 1) eqn:E1; [apply Z.eqb_eq in E1; lia|].
  cbn [deref mbind option_bind]. rewrite Hk0. cbn [mbind option_bind].
  by rewrite Hc.
Qed.

Lemma key_head len (k : list Z) :
  1 <= len -> length k = Z.to_nat len -> exists k0, k !! O = Some k0.
Proof. intros Hlen Hk. destruct k as [|k0 ?]; [cbn in Hk; lia|by exists k0]. Qed.

Section whole_keys.
Variables (tbl : thingy_table) (len : Z) (k : list Z).
Hypothesis Hwf : wf tbl.
Hypothesis Hlen : 1 <= len <= 255.
Hypothesis Hk : length k = Z.to_nat len.
Hypothesis Hnul : early_nul k = false.

Lemma search_after_assign v rc tbl1 :
  thingy_table_assign tbl len (Ptr k) (Ptr v) = Some (rc, tbl1) ->
  thingy_table_search tbl1 len (Ptr k) = Some (Ptr (strdup v)).
Proof.
  intros Ha.
  assert (0 <= len) as Hpos by lia.
  pose proof (assign_longest_key _ _ _ _ _ _ Hwf Hpos Ha) as Hlk.
  revert Ha. destruct (key_head len k ltac:(lia) Hk) as [k0 Hk0].
  unfold thingy_table_assign, thingy_table_search.
  destruct (len =? 0) eqn:E0; [apply Z.eqb_eq in E0; lia|].
  destruct (len >? longest_key tbl1) eqn:Egt; [apply Z.gtb_lt in Egt; lia|].
  cbn [deref mbind option_bind]. rewrite Hk0. cbn.
  destruct (len =? 1).
  - destruct (values tbl k0); intros [= _ <-];
      by rewrite values_raise; cbn; rewrite upd_same.
  - destruct (assign_chain (mbseqs tbl k0) len k (Ptr v))
      as [[c' added]|] eqn:Ea; [|done].
    intros [= _ <-].
    assert (mbseqs (if added
                    then raise_longest_key (set_chain tbl k0 c') len
                    else set_chain tbl k0 c') k0 = c') as ->.
    { destruct added; [rewrite mbseqs_raise|]; cbn; apply upd_same. }
    by eapply assign_chain_search.
Qed.
End whole_keys.

(** Where [search] finds a key, [delete] unlinks it and returns 0. *)
Lemma delete_found tbl len k v :
  thingy_table_search tbl len (Ptr k) = Some (Ptr v) ->
  exists tbl2, thingy_table_delete tbl len (Ptr k) = Some (0, tbl2).
Proof.
  unfold thingy_table_search, thingy_table_delete.
  destruct (len =? 0) eqn:E0; [done|].
  destruct (len >? longest_key tbl) eqn:Egt; [done|].
  destruct (k !! O) as [k0|]; [|by destruct (len =? 1)].
  cbn [mbind option_bind].
  destruct (len =? 1) eqn:E1.
  - intros [= Hv]. rewrite Hv. by eexists.
  - intros Hs. destruct (search_chain_delete _ _ _ _ Hs) as [c' Hd].
    rewrite Hd. cbn [mbind option_bind]. by eexists.
Qed.

(** ** Claims about the table *)

Lemma table_123_reachable : reachable table_123.
Proof.
  by apply (reach_add_from_string thingy_table_init (lit "123=x") 0 table_123
              reach_init).
Qed.

(** C1, at the key 01 00 05.  The claim is that [search] returns the value
    right after a successful [assign] of any key of 1 to 255 bytes.  The
    line [010005=x] is loaded with return code 0 and links a node of length
    3 whose stored key is the two bytes 01 00, because [strdup] stops at
    the NUL; [search] for the three bytes then compares past the end of
    that copy and has no defined result, where the claim promises the
    value. *)
Theorem search_after_assign_embedded_nul :
  exists tbl1,
    thingy_table_add_from_string thingy_table_init (lit "010005=x") =
      Some (0, tbl1) /\
    thingy_table_assign thingy_table_init 3 (Ptr [1; 0; 5]) (Ptr (lit "x")) =
      Some (0, tbl1) /\
    map node_id (nodes (mbseqs tbl1 1)) = [(3, [1; 0])] /\
    thingy_table_search tbl1 3 (Ptr [1; 0; 5]) = None.
Proof. eexists. split_and!; reflexivity. Qed.




(** On the table that holds 01 23, of [longest_key] 2: a three-byte key
    under 02 raises [longest_key] to 3, a one-byte key leaves it, and the
    deletion of 01 23 leaves it. *)
Example longest_key_raised :
  longest_key table_123 = 2 /\
  (longest_key ∘ snd <$>
     thingy_table_assign table_123 3 (Ptr [2; 3; 4]) (Ptr (lit "y"))) =
    Some 3 /\
  (longest_key ∘ snd <$>
     thingy_table_assign table_123 1 (Ptr [65]) (Ptr (lit "A"))) = Some 2 /\
  (tbl1 ← snd <$>
     thingy_table_assign table_123 3 (Ptr [2; 3; 4]) (Ptr (lit "y"));
   longest_key ∘ snd <$> thingy_table_delete tbl1 3 (Ptr [2; 3; 4])) =
    Some 3.
Proof. split_and!; reflexivity. Qed.

(** C3, at the key 01 00 05 assigned twice.  The claim is that [assign] on
    a key that is present replaces its value in place and never makes a
    second entry.  After the line [010005=x] the chain under 01 holds one
    node of length 3 with the stored key 01 00; the line [010005=y] then
    makes [assign] compare three bytes against that two-byte copy: the
    replacement the claim promises is not what the code does, its loop has
    no defined result there. *)
Theorem assign_present_embedded_nul :
  exists tbl1,
    thingy_table_add_from_string thingy_table_init (lit "010005=x") =
      Some (0, tbl1) /\
    map node_id (nodes (mbseqs tbl1 1)) = [(3, [1; 0])] /\
    thingy_table_assign tbl1 3 (Ptr [1; 0; 5]) (Ptr (lit "y")) = None /\
    thingy_table_add_from_string tbl1 (lit "010005=y") = None.
Proof. eexists. split_and!; reflexivity. Qed.





(** ** Decoding the key *)

Lemma hex_digit_listed c : hex_digit c -> c ∈ all_hex_digits.
Proof.
  intros H%hex_digit_cases. apply list_elem_of_In.
  assert (c = 48 \/ c = 49 \/ c = 50 \/ c = 51 \/ c = 52 \/ c = 53 \/
          c = 54 \/ c = 55 \/ c = 56 \/ c = 57 \/ c = 65 \/ c = 66 \/
          c = 67 \/ c = 68 \/ c = 69 \/ c = 70 \/ c = 97 \/ c = 98 \/
          c = 99 \/ c = 100 \/ c = 101 \/ c = 102) as Hc by lia.
  cbn. intuition auto.
Qed.

(** The two steps of the loop that fill one byte: the high digit goes in
    with the shift 4, the low digit with the shift 0. *)
Lemma hex_or_pair a b :
  hex_digit a -> hex_digit b ->
  hex_or b 0 (hex_or a 4 0) = 16 * digit_value a + digit_value b.
Proof.
  intros Ha%hex_digit_listed Hb%hex_digit_listed.
  assert (forallb (fun a => forallb (fun b =>
            hex_or b 0 (hex_or a 4 0) =? 16 * digit_value a + digit_value b)
            all_hex_digits) all_hex_digits = true) as Hall
    by (vm_compute; reflexivity).
  rewrite forallb_forall in Hall. apply list_elem_of_In in Ha, Hb.
  specialize (Hall a Ha). rewrite forallb_forall in Hall.
  by apply Z.eqb_eq, Hall.
Qed.

Lemma hex_or_low a : hex_digit a -> hex_or a 0 0 = digit_value a.
Proof.
  intros Ha%hex_digit_listed.
  assert (forallb (fun a => hex_or a 0 0 =? digit_value a) all_hex_digits
          = true) as Hall by (vm_compute; reflexivity).
  rewrite forallb_forall in Hall. apply list_elem_of_In in Ha.
  by apply Z.eqb_eq, Hall.
Qed.

Lemma alter_middle {A} (f : A -> A) (pre : list A) x post :
  alter f (length pre) (pre ++ x :: post) = pre ++ f x :: post.
Proof. induction pre as [|y pre IH]; [done|]. cbn. by rewrite IH. Qed.

(** The loop on an even number of digits that start at an even [oi]. *)
Lemma hex_loop_pairs m : forall h pre i n,
  length h = (2 * m)%nat -> Forall hex_digit h ->
  (i + n mod 2 = 2 * length pre)%nat ->
  hex_loop h i n (pre ++ replicate m 0) = pre ++ hex_pairs h.
Proof.
  induction m as [|m IH]; intros h pre i n Hl Hh Hi.
  - destruct h; [|done]. done.
  - destruct h as [|a [|b h]]; [cbn in Hl; lia..|].
    apply Forall_cons_1 in Hh as [Ha Hh]. apply Forall_cons_1 in Hh as [Hb Hh].
    cbn [hex_loop replicate hex_pairs]. rewrite Hi.
    replace (2 * length pre / 2)%nat with (length pre)
      by (rewrite Nat.mul_comm, Nat.div_mul; lia).
    replace (2 * length pre mod 2)%nat with O
      by (rewrite Nat.mul_comm, Nat.Div0.mod_mul; lia).
    cbn [Nat.eqb]. rewrite alter_middle.
    replace (S i + n mod 2)%nat with (2 * length pre + 1)%nat by lia.
    replace ((2 * length pre + 1) / 2)%nat with (length pre).
    2:{ rewrite Nat.mul_comm, Nat.div_add_l by lia. cbn. lia. }
    replace ((2 * length pre + 1) mod 2)%nat with 1%nat.
    2:{ rewrite Nat.add_comm, Nat.mul_comm, Nat.Div0.mod_add. done. }
    cbn [Nat.eqb]. rewrite alter_middle, hex_or_pair by done.
    set (x := 16 * digit_value a + digit_value b).
    replace (pre ++ x :: replicate m 0) with ((pre ++ [x]) ++ replicate m 0)
      by (by rewrite <- app_assoc).
    rewrite IH; [by rewrite <- app_assoc| cbn in Hl; lia | done |].
    rewrite length_app. cbn [length]. lia.
Qed.

(** The decoding loop reads a key of an even number of digits two digits
    to the byte, and a key of an odd number of digits as if a zero digit
    stood before it. *)
Lemma hex_key_pairs h :
  Forall hex_digit h ->
  hex_key h (length h) =
  hex_pairs (if Nat.odd (length h) then 48 :: h else h).
Proof.
  intros Hh. unfold hex_key. rewrite firstn_all.
  destruct (Nat.odd (length h)) eqn:Eodd.
  - apply Nat.odd_spec in Eodd as [m Hm].
    destruct h as [|a h]; [cbn in Hm; lia|]. cbn [length] in Hm.
    apply Forall_cons_1 in Hh as [Ha Hh].
    replace ((length (a :: h) + 1) / 2)%nat with (S m).
    2:{ cbn [length]. replace (S (length h) + 1)%nat with ((m + 1) * 2)%nat
          by lia. rewrite Nat.div_mul; lia. }
    cbn [hex_loop replicate hex_pairs length].
    replace ((0 + S (length h) mod 2))%nat with 1%nat.
    2:{ replace (S (length h)) with (1 + m * 2)%nat by lia.
        rewrite Nat.Div0.mod_add. done. }
    cbn [Nat.div Nat.modulo Nat.divmod fst snd Nat.eqb Nat.sub alter
         list_alter].
    rewrite hex_or_low by done.
    change (digit_value a :: replicate m 0)
      with ([digit_value a] ++ replicate m 0).
    rewrite (hex_loop_pairs m); [done|lia|done|].
    replace (S (length h)) with (1 + m * 2)%nat by lia.
    rewrite Nat.Div0.mod_add. done.
  - assert (Nat.even (length h) = true) as Hev.
    { rewrite <- Nat.negb_odd. by rewrite Eodd. }
    apply Nat.even_spec in Hev as [m Hm].
    replace ((length h + 1) / 2)%nat with m.
    2:{ rewrite Hm. rewrite Nat.mul_comm, Nat.div_add_l by lia. cbn. lia. }
    apply (hex_loop_pairs m h [] O); [done..|].
    rewrite Hm, Nat.mul_comm, Nat.Div0.mod_mul. done.
Qed.

(** ** Claims about definition lines *)

Lemma add_from_string_hex tbl h rest :
  Forall hex_digit h -> h <> [] -> after_key rest ->
  thingy_table_add_from_string tbl (h ++ rest) =
  after_strtok tbl (h ++ [0]) (save_after rest).
Proof.
  intros Hh Hne Hr. rewrite add_from_string_unfold.
  by rewrite strtok_token by (done || by apply hex_digit_token).
Qed.

Lemma add_from_string_prefixed tbl p h rest :
  Forall hex_digit h -> p = 47 \/ p = 42 -> after_key rest ->
  thingy_table_add_from_string tbl (p :: h ++ rest) =
  after_strtok tbl (p :: h ++ [0]) (save_after rest).
Proof.
  intros Hh Hp Hr. rewrite add_from_string_unfold.
  change (p :: h ++ rest) with ((p :: h) ++ rest).
  rewrite strtok_token; [done| |done|done].
  constructor; [unfold token_char; lia|by apply hex_digit_token].
Qed.

Lemma keylen_small (h : list Z) :
  (length h <= 510)%nat -> (255 <? (length h + 1) / 2)%nat = false.
Proof.
  intros H. apply Nat.ltb_ge.
  transitivity (511 / 2)%nat; [apply Nat.Div0.div_le_mono; lia|done].
Qed.

Lemma keylen_pos (h : list Z) :
  (1 <= length h)%nat -> (1 <= (length h + 1) / 2)%nat.
Proof.
  intros H. transitivity (2 / 2)%nat; [done|].
  apply Nat.Div0.div_le_mono. lia.
Qed.

(** [assign] in a state that is fresh for the key: the table it leaves. *)
Lemma assign_fresh_for tbl len k k0 v :
  1 <= len -> k !! O = Some k0 -> fresh_for tbl len k = true ->
  thingy_table_assign tbl len (Ptr k) (Ptr v) =
  Some (0, if len =? 1
           then raise_longest_key (set_value tbl k0 (Ptr (strdup v))) 1
           else raise_longest_key
                  (set_chain tbl k0
                     (chain_node (linked_list.mk len (strdup k) (strdup v))
                                 chain_unwritten)) len).
Proof.
  intros Hlen Hk0. unfold fresh_for. rewrite Hk0.
  destruct (len =? 1) eqn:E1.
  - apply Z.eqb_eq in E1. subst len. intros _. by apply assign_one_byte.
  - apply Z.eqb_neq in E1. cbn [orb]. intros Hc.
    apply assign_fresh; [lia|done|]. by destruct (mbseqs tbl k0).
Qed.

(** A key with a NUL before its last byte is longer than its [strdup]
    copy: the comparison runs off the copy. *)
Lemma memcmp_early_nul k :
  early_nul k = true -> memcmp k (strdup k) (length k) = None.
Proof.
  induction k as [|c k IH]; [done|]. cbn [early_nul strdup length memcmp].
  destruct k as [|c' k]; [done|]. destruct (c =? 0) eqn:E0.
  - intros _. apply Z.eqb_eq in E0. subst c. by rewrite Z.eqb_refl.
  - cbn [orb]. intros H. rewrite Z.eqb_refl. by apply IH.
Qed.

Lemma search_truncated tbl len k k0 v c :
  2 <= len -> length k = Z.to_nat len -> k !! O = Some k0 ->
  early_nul k = true ->
  thingy_table_search
    (raise_longest_key
       (set_chain tbl k0 (chain_node (linked_list.mk len (strdup k) v) c))
       len) len (Ptr k) = None.
Proof.
  intros Hlen Hk Hk0 Hnul. unfold thingy_table_search.
  rewrite longest_key_raise, mbseqs_raise. cbn [longest_key mbseqs set_chain].
  destruct (len =? 0) eqn:E0; [apply Z.eqb_eq in E0; lia|].
  destruct (len >? _) eqn:Egt; [apply Z.gtb_lt in Egt; lia|].
  destruct (len =? 1) eqn:E1; [apply Z.eqb_eq in E1; lia|].
  rewrite Hk0. cbn [mbind option_bind]. rewrite upd_same.
  cbn [search_chain linked_list.length linked_list.key].
  by rewrite Z.eqb_refl, <- Hk, memcmp_early_nul.
Qed.

(** After [assign] in a state that is fresh for the key, what [search]
    returns for the key. *)
Lemma search_after_fresh_assign tbl len k v tbl1 :
  wf tbl -> 1 <= len <= 255 -> length k = Z.to_nat len ->
  fresh_for tbl len k = true ->
  thingy_table_assign tbl len (Ptr k) (Ptr v) = Some (0, tbl1) ->
  thingy_table_search tbl1 len (Ptr k) =
  if early_nul k then None else Some (Ptr (strdup v)).
Proof.
  intros Hwf Hlen Hk Hf Ha. destruct (early_nul k) eqn:Hnul.
  - destruct (key_head len k ltac:(lia) Hk) as [k0 Hk0].
    assert (2 <= len) as H2.
    { destruct (decide (len = 1)) as [->|]; [|lia].
      by destruct k as [|? [|? ?]]. }
    rewrite (assign_fresh_for tbl len k k0 v ltac:(lia) Hk0 Hf) in Ha.
    destruct (len =? 1) eqn:E1; [apply Z.eqb_eq in E1; lia|].
    injection Ha as <-. by apply search_truncated.
  - by eapply search_after_assign.
Qed.

(** C4: a line whose HEXKEY has an odd number of hex digits is decoded as
    if a zero digit stood before the key, and the line assigns its value
    to those bytes: it is the call of [assign] with them; in a state that
    is fresh for the key the line returns 0 and [search] then returns the
    value for them (when [strdup] copied them whole); and loaded into the
    empty table, the line leaves nothing under the bytes read with the
    zero digit put after the key.  At [123=x] the key is 01 23, not
    12 30, and the value is "x". *)
Theorem odd_hexkey_left_padded tbl h value :
  Forall hex_digit h -> Nat.odd (length h) = true ->
  (length h <= 510)%nat -> cstr value <> [] ->
  let key := hex_pairs (48 :: h) in
  let keylen := Z.of_nat (length key) in
  hex_key h (length h) = key /\
  thingy_table_add_from_string tbl (h ++ 61 :: value) =
    (r ← thingy_table_assign tbl keylen (Ptr key) (Ptr (cstr value ++ [0]));
     Some (0, snd r)) /\
  (reachable tbl -> fresh_for tbl keylen key = true ->
   exists tbl1,
     thingy_table_add_from_string tbl (h ++ 61 :: value) = Some (0, tbl1) /\
     thingy_table_search tbl1 keylen (Ptr key) =
       if early_nul key then None else Some (Ptr (cstr value ++ [0]))) /\
  (exists tbl1,
     thingy_table_add_from_string thingy_table_init (h ++ 61 :: value) =
       Some (0, tbl1) /\
     forall b,
       hex_pairs (h ++ [48]) !! O = Some b -> key !! O <> Some b ->
       thingy_table_search tbl1 keylen (Ptr (hex_pairs (h ++ [48]))) =
         Some NULL).
Proof.
  intros Hh Hodd Hlen Hv key keylen.
  pose proof (hex_key_pairs h Hh) as Hkey. rewrite Hodd in Hkey.
  fold key in Hkey.
  assert (h <> []) as Hne by (intros ->; done).
  assert (length key = ((length h + 1) / 2)%nat) as Hkl.
  { by rewrite <- Hkey, hex_key_length. }
  assert (1 <= keylen <= 255) as Hrange.
  { unfold keylen. rewrite Hkl.
    pose proof (keylen_small h Hlen) as Hs. apply Nat.ltb_ge in Hs.
    assert (1 <= length h)%nat as H1 by (destruct h; [done|cbn; lia]).
    pose proof (keylen_pos h H1). lia. }
  assert (length key = Z.to_nat keylen) as Hk by (unfold keylen; lia).
  assert (forall t, thingy_table_add_from_string t (h ++ 61 :: value) =
    (r ← thingy_table_assign t keylen (Ptr key) (Ptr (cstr value ++ [0]));
     Some (0, snd r))) as Hline.
  { intros t. rewrite add_from_string_hex by (done || by right).
    rewrite after_strtok_hex by done. cbv zeta.
    rewrite keylen_small by done. rewrite cstr_save_after_eq.
    rewrite Hkey. unfold keylen. rewrite Hkl.
    destruct (cstr value); done. }
  assert (strdup (cstr value ++ [0]) = cstr value ++ [0]) as Hdup.
  { rewrite strdup_app by apply cstr_nonzero. done. }
  destruct (key_head keylen key ltac:(lia) Hk) as [k0 Hk0].
  split_and!; [done|apply Hline| |].
  - intros Hwf%reachable_wf Hf.
    pose proof (assign_fresh_for tbl keylen key k0 (cstr value ++ [0])
                  ltac:(lia) Hk0 Hf) as Ha.
    eexists. split; [by rewrite Hline, Ha|]. cbn [snd].
    rewrite (search_after_fresh_assign _ _ _ _ _ Hwf Hrange Hk Hf Ha).
    by rewrite Hdup.
  - assert (fresh_for thingy_table_init keylen key = true) as Hf.
    { unfold fresh_for. rewrite Hk0. cbn. apply orb_true_r. }
    pose proof (assign_fresh_for thingy_table_init keylen key k0
                  (cstr value ++ [0]) ltac:(lia) Hk0 Hf) as Ha.
    eexists. split; [by rewrite Hline, Ha|]. cbn [snd].
    intros b Hb Hother.
    assert (b <> k0) as Hbk by (intros ->; by apply Hother).
    unfold thingy_table_search. rewrite Hb.
    destruct (keylen =? 0) eqn:E0; [done|].
    destruct (keylen =? 1) eqn:E1.
    + rewrite longest_key_raise, values_raise.
      cbn [longest_key values set_value thingy_table_init].
      destruct (keylen >? _); [done|]. cbn [mbind option_bind].
      by rewrite upd_other.
    + rewrite longest_key_raise, mbseqs_raise.
      cbn [longest_key mbseqs set_chain thingy_table_init].
      destruct (keylen >? _); [done|]. cbn [mbind option_bind].
      by rewrite upd_other.
Qed.

Lemma odd_hexkey_left_padded_witness :
  (Forall hex_digit [49; 50; 51] /\ Nat.odd (length [49; 50; 51]) = true /\
   (length [49; 50; 51] <= 510)%nat /\ cstr (lit "x") <> []) /\
  hex_key [49; 50; 51] (length [49; 50; 51]) = hex_pairs (48 :: [49; 50; 51]) /\
  thingy_table_add_from_string thingy_table_init ([49; 50; 51] ++ 61 :: lit "x") =
    (r ← thingy_table_assign thingy_table_init
           (Z.of_nat (length (hex_pairs (48 :: [49; 50; 51]))))
           (Ptr (hex_pairs (48 :: [49; 50; 51])))
           (Ptr (cstr (lit "x") ++ [0]));
     Some (0, snd r)) /\
  (reachable thingy_table_init ->
   fresh_for thingy_table_init
     (Z.of_nat (length (hex_pairs (48 :: [49; 50; 51]))))
     (hex_pairs (48 :: [49; 50; 51])) = true ->
   exists tbl1,
     thingy_table_add_from_string thingy_table_init
       ([49; 50; 51] ++ 61 :: lit "x") = Some (0, tbl1) /\
     thingy_table_search tbl1
       (Z.of_nat (length (hex_pairs (48 :: [49; 50; 51]))))
       (Ptr (hex_pairs (48 :: [49; 50; 51]))) =
       if early_nul (hex_pairs (48 :: [49; 50; 51]))
       then None else Some (Ptr (cstr (lit "x") ++ [0]))) /\
  (exists tbl1,
     thingy_table_add_from_string thingy_table_init
       ([49; 50; 51] ++ 61 :: lit "x") = Some (0, tbl1) /\
     forall b,
       hex_pairs ([49; 50; 51] ++ [48]) !! O = Some b ->
       hex_pairs (48 :: [49; 50; 51]) !! O <> Some b ->
       thingy_table_search tbl1
         (Z.of_nat (length (hex_pairs (48 :: [49; 50; 51]))))
         (Ptr (hex_pairs ([49; 50; 51] ++ [48]))) = Some NULL).
Proof.
  assert (Forall hex_digit [49; 50; 51]) as H1
    by (repeat constructor; reflexivity).
  assert (Nat.odd (length [49; 50; 51]) = true) as H2 by reflexivity.
  assert (length [49; 50; 51] <= 510)%nat as H3 by (cbn; lia).
  assert (cstr (lit "x") <> []) as H4 by discriminate.
  split; [by split_and!|].
  exact (odd_hexkey_left_padded thingy_table_init [49; 50; 51] (lit "x")
           H1 H2 H3 H4).
Defined.

(** The line [123=x] on the empty table, in bytes: it returns 0, the
    decoded key is 01 23, [search] returns "x" for 01 23 and [NULL] for
    12 30. *)
Example load_123 :
  (fst <$> thingy_table_add_from_string thingy_table_init (lit "123=x")) =
    Some 0 /\
  hex_pairs (48 :: [49; 50; 51]) = [1; 35] /\
  hex_pairs ([49; 50; 51] ++ [48]) = [18; 48] /\
  thingy_table_search table_123 2 (Ptr [1; 35]) = Some (Ptr (lit "x")) /\
  thingy_table_search table_123 2 (Ptr [18; 48]) = Some NULL.
Proof. split_and!; reflexivity. Qed.

(** The examples of the specification: a line that assigns, a slash line
    and a bare key that deletes. *)
Example table_examples :
  (r1 ← thingy_table_add_from_string thingy_table_init (lit "2A=star");
   r2 ← thingy_table_add_from_string (snd r1) (lit "/0A");
   r3 ← thingy_table_add_from_string (snd r2) (lit "2A");
   Some (fst r1, fst r2, fst r3,
         thingy_table_search (snd r2) 1 (Ptr [42]),
         thingy_table_search (snd r2) 1 (Ptr [10]),
         thingy_table_search (snd r3) 1 (Ptr [42]),
         longest_key (snd r3))) =
    Some (0, 0, 16, Some (Ptr (lit "star")), Some (Ptr [10; 0]), Some NULL, 1).
Proof. reflexivity. Qed.

(** The second key of a chain.  [assign] of 01 02 to the empty table links
    a node whose [next] is not written.  [assign] of 01 03 then walks the
    chain of 01 past that node and tests its [next]: the call has no
    defined result, and no more has [search] for a key of the chain that
    is not the first.  (In a run in which the block from [malloc] holds
    zero bytes the loops end there; in a run in which it is a block that
    [delete] freed, they go on into what that block pointed to.) *)
Example second_key_in_chain :
  exists tbl1,
    thingy_table_assign thingy_table_init 2 (Ptr [1; 2]) (Ptr (lit "X")) =
      Some (0, tbl1) /\
    mbseqs tbl1 1 =
      chain_node (linked_list.mk 2 [1; 2] (lit "X")) chain_unwritten /\
    thingy_table_search tbl1 2 (Ptr [1; 2]) = Some (Ptr (lit "X")) /\
    thingy_table_assign tbl1 2 (Ptr [1; 3]) (Ptr (lit "Y")) = None /\
    thingy_table_search tbl1 2 (Ptr [1; 4]) = None.
Proof. eexists. split_and!; reflexivity. Qed.

(** C6, at the lines [/000A] and [*000A].  The claim is that the line
    assigns the decoded key, here 00 0A, the newline or the null byte.
    Both lines return 0 and are the call of [assign] with the key 00 0A,
    but the node they link holds the one-byte copy 00 that [strdup] made
    of the key; [search] for 00 0A compares two bytes against that copy
    and has no defined result, where the claim promises the value. *)
Theorem slash_line_embedded_nul :
  exists tbl1 tbl2,
    thingy_table_add_from_string thingy_table_init (lit "/000A") =
      Some (0, tbl1) /\
    thingy_table_assign thingy_table_init 2 (Ptr [0; 10]) (Ptr [10; 0]) =
      Some (0, tbl1) /\
    mbseqs tbl1 0 =
      chain_node (linked_list.mk 2 [0] [10; 0]) chain_unwritten /\
    thingy_table_search tbl1 2 (Ptr [0; 10]) = None /\
    thingy_table_add_from_string thingy_table_init (lit "*000A") =
      Some (0, tbl2) /\
    thingy_table_assign thingy_table_init 2 (Ptr [0; 10]) (Ptr [0; 0]) =
      Some (0, tbl2) /\
    mbseqs tbl2 0 = chain_node (linked_list.mk 2 [0] [0]) chain_unwritten /\
    thingy_table_search tbl2 2 (Ptr [0; 10]) = None.
Proof. eexists _, _. split_and!; reflexivity. Qed.

(** X17: a line made of a slash and a HEXKEY is the call of [assign] with
    the decoded key and the string of the single newline character (the bytes
    0A 00), and a line made of a star and a HEXKEY is that call with the
    string literal whose first byte is the terminator, of which [strdup]
    keeps the single byte 00.  In a state that is fresh for the key both
    return 0, and [search] then returns these values when [strdup] copied
    the key whole. *)
Theorem slash_star_values tbl h :
  Forall hex_digit h -> (1 <= length h <= 510)%nat ->
  let keylen := Z.of_nat ((length h + 1) / 2) in
  let key := hex_key h (length h) in
  thingy_table_add_from_string tbl (47 :: h ++ [0]) =
    (r ← thingy_table_assign tbl keylen (Ptr key) (Ptr [10; 0]);
     Some (0, snd r)) /\
  thingy_table_add_from_string tbl (42 :: h ++ [0]) =
    (r ← thingy_table_assign tbl keylen (Ptr key) (Ptr [0; 0]);
     Some (0, snd r)) /\
  (reachable tbl -> fresh_for tbl keylen key = true ->
   exists tbl1 tbl2,
     thingy_table_add_from_string tbl (47 :: h ++ [0]) = Some (0, tbl1) /\
     thingy_table_search tbl1 keylen (Ptr key) =
       (if early_nul key then None else Some (Ptr [10; 0])) /\
     thingy_table_add_from_string tbl (42 :: h ++ [0]) = Some (0, tbl2) /\
     thingy_table_search tbl2 keylen (Ptr key) =
       (if early_nul key then None else Some (Ptr [0]))).
Proof.
  intros Hh Hlen keylen key.
  assert (forall p, p = 47 \/ p = 42 ->
    thingy_table_add_from_string tbl (p :: h ++ [0]) =
    (r ← thingy_table_assign tbl keylen (Ptr key)
           (Ptr (if p =? 47 then [10; 0] else [0; 0]));
     Some (0, snd r))) as Hline.
  { intros p Hp. rewrite add_from_string_prefixed by (done || by left).
    rewrite after_strtok_prefixed by done. cbv zeta.
    rewrite keylen_small by lia.
    destruct (_ =? 0)%nat eqn:E0; [|done]. apply Nat.eqb_eq in E0.
    pose proof (keylen_pos h). lia. }
  assert (thingy_table_add_from_string tbl (47 :: h ++ [0]) =
    (r ← thingy_table_assign tbl keylen (Ptr key) (Ptr [10; 0]);
     Some (0, snd r))) as H47 by (apply (Hline 47); by left).
  assert (thingy_table_add_from_string tbl (42 :: h ++ [0]) =
    (r ← thingy_table_assign tbl keylen (Ptr key) (Ptr [0; 0]);
     Some (0, snd r))) as H42 by (apply (Hline 42); by right).
  split_and!; [done..|].
  intros Hwf%reachable_wf Hf.
  assert (1 <= keylen <= 255) as Hk1.
  { unfold keylen. pose proof (keylen_small h ltac:(lia)) as Hs.
    apply Nat.ltb_ge in Hs. pose proof (keylen_pos h). lia. }
  assert (length key = Z.to_nat keylen) as Hk2.
  { unfold key, keylen. rewrite hex_key_length. lia. }
  destruct (key_head keylen key ltac:(lia) Hk2) as [k0 Hk0].
  pose proof (assign_fresh_for tbl keylen key k0 [10; 0] ltac:(lia) Hk0 Hf)
    as Ha1.
  pose proof (assign_fresh_for tbl keylen key k0 [0; 0] ltac:(lia) Hk0 Hf)
    as Ha2.
  eexists _, _. rewrite H47, H42, Ha1, Ha2.
  split_and!; [done| |done|]; cbn [snd].
  - by rewrite (search_after_fresh_assign _ _ _ _ _ Hwf Hk1 Hk2 Hf Ha1).
  - by rewrite (search_after_fresh_assign _ _ _ _ _ Hwf Hk1 Hk2 Hf Ha2).
Qed.

Lemma slash_star_values_witness :
  (Forall hex_digit [48; 49; 48; 65] /\
   (1 <= length [48; 49; 48; 65] <= 510)%nat) /\
  thingy_table_add_from_string thingy_table_init
    (47 :: [48; 49; 48; 65] ++ [0]) =
    (r ← thingy_table_assign thingy_table_init
           (Z.of_nat ((length [48; 49; 48; 65] + 1) / 2))
           (Ptr (hex_key [48; 49; 48; 65] (length [48; 49; 48; 65])))
           (Ptr [10; 0]);
     Some (0, snd r)) /\
  thingy_table_add_from_string thingy_table_init
    (42 :: [48; 49; 48; 65] ++ [0]) =
    (r ← thingy_table_assign thingy_table_init
           (Z.of_nat ((length [48; 49; 48; 65] + 1) / 2))
           (Ptr (hex_key [48; 49; 48; 65] (length [48; 49; 48; 65])))
           (Ptr [0; 0]);
     Some (0, snd r)) /\
  (reachable thingy_table_init ->
   fresh_for thingy_table_init
     (Z.of_nat ((length [48; 49; 48; 65] + 1) / 2))
     (hex_key [48; 49; 48; 65] (length [48; 49; 48; 65])) = true ->
   exists tbl1 tbl2,
     thingy_table_add_from_string thingy_table_init
       (47 :: [48; 49; 48; 65] ++ [0]) = Some (0, tbl1) /\
     thingy_table_search tbl1
       (Z.of_nat ((length [48; 49; 48; 65] + 1) / 2))
       (Ptr (hex_key [48; 49; 48; 65] (length [48; 49; 48; 65]))) =
       (if early_nul (hex_key [48; 49; 48; 65] (length [48; 49; 48; 65]))
        then None else Some (Ptr [10; 0])) /\
     thingy_table_add_from_string thingy_table_init
       (42 :: [48; 49; 48; 65] ++ [0]) = Some (0, tbl2) /\
     thingy_table_search tbl2
       (Z.of_nat ((length [48; 49; 48; 65] + 1) / 2))
       (Ptr (hex_key [48; 49; 48; 65] (length [48; 49; 48; 65]))) =
       (if early_nul (hex_key [48; 49; 48; 65] (length [48; 49; 48; 65]))
        then None else Some (Ptr [0]))).
Proof.
  assert (Forall hex_digit [48; 49; 48; 65]) as H1
    by (repeat constructor; reflexivity).
  assert (1 <= length [48; 49; 48; 65] <= 510)%nat as H2 by (cbn; lia).
  split; [by split|].
  exact (slash_star_values thingy_table_init [48; 49; 48; 65] H1 H2).
Defined.

(** The lines [/010A] and [*010A] on the empty table, in bytes: the
    two-byte key 01 0A gets the values 0A 00 and 00. *)
Example slash_star_010A :
  (r ← thingy_table_add_from_string thingy_table_init (lit "/010A");
   Some (fst r, thingy_table_search (snd r) 2 (Ptr [1; 10]))) =
    Some (0, Some (Ptr [10; 0])) /\
  (r ← thingy_table_add_from_string thingy_table_init (lit "*010A");
   Some (fst r, thingy_table_search (snd r) 2 (Ptr [1; 10]))) =
    Some (0, Some (Ptr [0])).
Proof. split; reflexivity. Qed.

(** ** One buffer of the file loop *)

Lemma insert_middle {A} (pre : list A) x y post :
  <[length pre := y]> (pre ++ x :: post) = pre ++ y :: post.
Proof. induction pre as [|z pre IH]; [done|]. cbn. f_equal. apply IH. Qed.

(** The characters of a line and what follows them in the buffer. *)
Lemma cstr_split L : L = cstr L \/ exists L2, L = cstr L ++ 0 :: L2.
Proof.
  induction L as [|c L IH]; [by left|]. cbn. destruct (c =? 0) eqn:E.
  - apply Z.eqb_eq in E. subst. right. by exists L.
  - destruct IH as [IH|[L2 IH]].
    + left. by rewrite <- IH.
    + right. exists L2. cbn. by rewrite <- IH.
Qed.

Lemma strrchr_newline L r :
  Forall (fun c => c <> 0) L -> 10 ∉ L ->
  strrchr (L ++ 10 :: 0 :: r) 10 = Some (length L).
Proof.
  induction 1 as [|c L Hc _ IH]; [done|].
  intros [Hne Hni]%not_elem_of_cons. cbn.
  destruct (c =? 0) eqn:E; [by apply Z.eqb_eq in E|]. by rewrite IH.
Qed.

Lemma strrchr_none L r :
  Forall (fun c => c <> 0) L -> 10 ∉ L -> strrchr (L ++ 0 :: r) 10 = None.
Proof.
  induction 1 as [|c L Hc _ IH]; [done|].
  intros [Hne Hni]%not_elem_of_cons. cbn.
  destruct (c =? 0) eqn:E; [by apply Z.eqb_eq in E|]. rewrite IH by done.
  destruct (c =? 10) eqn:E10; [apply Z.eqb_eq in E10; congruence|done].
Qed.

Lemma cstr_no_newline L : 10 ∉ L -> 10 ∉ cstr L.
Proof.
  induction L as [|c L IH]; [done|]. intros [? ?]%not_elem_of_cons. cbn.
  destruct (c =? 0); [apply not_elem_of_nil|].
  apply not_elem_of_cons. auto.
Qed.

(** After the final newline is erased, the buffer holds the characters of
    the line, a NUL and bytes that no one reads. *)
Lemma erase_final_newline_line L :
  10 ∉ L ->
  exists junk, erase_final_newline (L ++ [10; 0]) = cstr L ++ 0 :: junk.
Proof.
  intros Hnl. unfold erase_final_newline.
  pose proof (cstr_nonzero L) as Hnz.
  pose proof (cstr_no_newline L Hnl) as Hnl'.
  pose proof (cstr_split L) as HL.
  remember (cstr L) as T eqn:HT. clear HT Hnl.
  destruct HL as [->|[L2 ->]].
  - rewrite strrchr_newline by done. rewrite insert_middle. by exists [0].
  - rewrite <- app_assoc. cbn [app]. rewrite strrchr_none by done.
    by eexists.
Qed.


Lemma skip_whitespace_app T junk :
  Forall (fun c => c <> 0) T ->
  skip_whitespace (T ++ 0 :: junk) = skip_whitespace T ++ 0 :: junk.
Proof.
  induction 1 as [|c T Hc _ IH]; [done|]. cbn.
  by destruct ((c =? 32) || (c =? 9)).
Qed.

Lemma skip_whitespace_nonzero T :
  Forall (fun c => c <> 0) T -> Forall (fun c => c <> 0) (skip_whitespace T).
Proof.
  induction 1 as [|c T Hc HT IH]; [constructor|]. cbn.
  destruct ((c =? 32) || (c =? 9)); [done|by constructor].
Qed.

Lemma add_from_string_junk tbl S junk :
  Forall (fun c => c <> 0) S ->
  thingy_table_add_from_string tbl (S ++ 0 :: junk) =
  thingy_table_add_from_string tbl (S ++ [0]).
Proof.
  intros HS. rewrite !add_from_string_unfold. by rewrite !strdup_app by done.
Qed.

(** ** One buffer of the file loop, line by line *)

Lemma skip_whitespace_blank T :
  forallb whitespace T = true <-> skip_whitespace T = [].
Proof.
  induction T as [|c T IH]; [done|]. cbn. unfold whitespace at 1.
  destruct ((c =? 32) || (c =? 9)); cbn; [done|]. split; done.
Qed.

Lemma add_from_file_step_text tbl count buf L junk :
  erase_final_newline buf = cstr L ++ 0 :: junk ->
  add_from_file_step tbl count buf =
  (r ← buffer_line tbl L; Some (snd r, count + counts (fst r))).
Proof.
  intros He. unfold add_from_file_step, buffer_line. rewrite He.
  pose proof (cstr_nonzero L) as Hnz. set (T := cstr L) in *.
  rewrite skip_whitespace_app by done.
  pose proof (skip_whitespace_nonzero T Hnz) as Hsnz.
  destruct (forallb whitespace T) eqn:Eb.
  - apply skip_whitespace_blank in Eb. rewrite Eb. cbn.
    do 2 f_equal. lia.
  - assert (skip_whitespace T <> []) as Hne.
    { intros H%skip_whitespace_blank. congruence. }
    destruct (skip_whitespace T) as [|x S'] eqn:ES; [done|].
    apply Forall_cons_1 in Hsnz as [Hx HS']. cbn [app nth].
    destruct (x =? 0) eqn:Ex; [by apply Z.eqb_eq in Ex|].
    assert (nth O (T ++ 0 :: junk) 0 = nth O T 0) as ->.
    { destruct T; [cbn in Eb; done|done]. }
    destruct (nth O T 0 =? 35); [cbn; do 2 f_equal; lia|].
    change (x :: S' ++ 0 :: junk) with ((x :: S') ++ 0 :: junk).
    rewrite add_from_string_junk by by constructor.
    cbn [app].
    destruct (thingy_table_add_from_string tbl (x :: S' ++ [0]))
      as [[rc t]|]; [|done].
    cbn. destruct (rc =? 0); cbn; do 2 f_equal; lia.
Qed.

Lemma add_from_file_step_line tbl count L :
  10 ∉ L ->
  add_from_file_step tbl count (L ++ [10; 0]) =
  (r ← buffer_line tbl L; Some (snd r, count + counts (fst r))).
Proof.
  intros [junk He]%erase_final_newline_line.
  by eapply add_from_file_step_text.
Qed.


(** ** The code and the definition language on one line *)



Lemma strlen_nonzero kp :
  Forall (fun c => c <> 0) kp -> strlen (kp ++ [0]) = length kp.
Proof.
  intros H. unfold strlen. rewrite cstr_app by done. cbn. by rewrite app_nil_r.
Qed.

Lemma key_part_token t : Forall token_char t -> Forall token_char (key_part t).
Proof.
  destruct t as [|p t]; [done|]. unfold key_part. intros H.
  destruct (_ || _); [by apply Forall_cons_1 in H as [_ ?]|done].
Qed.

Lemma strspn_not_hex kp :
  Forall (fun c => c <> 0) kp -> ~ Forall hex_digit kp ->
  (strspn (kp ++ [0%Z]) hex_digits < length kp)%nat.
Proof.
  induction kp as [|c kp IH]; intros Hnz Hnot; [by destruct Hnot|].
  apply Forall_cons_1 in Hnz as [Hc Hnz]. cbn [app strspn length].
  destruct (in_set c hex_digits) eqn:Ec; [|rewrite andb_false_r; lia].
  destruct (c =? 0) eqn:E0; [by apply Z.eqb_eq in E0|]. cbn [negb andb].
  apply Nat.succ_lt_mono in IH; [done|done|].
  intros Hh. apply Hnot. by constructor.
Qed.


Lemma keylen_large (h : list Z) :
  (510 < length h)%nat -> (255 <? (length h + 1) / 2)%nat = true.
Proof.
  intros H. apply Nat.ltb_lt.
  apply Nat.lt_le_trans with (512 / 2)%nat; [vm_compute; lia|].
  apply Nat.Div0.div_le_mono. lia.
Qed.



Lemma strtok_equals sd save :
  strtok (Ptr (61 :: sd)) (lit "=") save = strtok (Ptr sd) (lit "=") save.
Proof. reflexivity. Qed.

Lemma add_from_string_equals tbl s :
  thingy_table_add_from_string tbl (61 :: s) =
  thingy_table_add_from_string tbl s.
Proof.
  rewrite !add_from_string_unfold.
  change (strdup (61 :: s)) with (61 :: strdup s). by rewrite strtok_equals.
Qed.







Lemma delete_rc tbl len key rc tbl' :
  thingy_table_delete tbl len key = Some (rc, tbl') -> rc = 0 \/ rc = 1.
Proof.
  unfold thingy_table_delete. destruct key as [|k]; [intros [= <- _]; by right|].
  destruct (len =? 0); [intros [= <- _]; by right|].
  destruct (len >? longest_key tbl); [intros [= <- _]; by right|].
  destruct (k !! O) as [k0|]; [|by destruct (len =? 1)]. cbn.
  destruct (len =? 1).
  - destruct (values tbl k0); intros [= <- _]; auto.
  - destruct (delete_chain (mbseqs tbl k0) len k) as [[|c']|]; [| |done];
      intros [= <- _]; auto.
Qed.



(** ** [fgets] on lines that fit the buffer *)

Lemma fgets_read_line L rest room :
  10 ∉ L -> (length L < room)%nat ->
  fgets_read room (L ++ 10 :: rest) = (L ++ [10], rest).
Proof.
  revert room. induction L as [|c L IH]; intros room Hnl Hlen.
  - destruct room; [cbn in Hlen; lia|done].
  - apply not_elem_of_cons in Hnl as [Hc Hnl].
    destruct room as [|room]; [cbn in Hlen; lia|]. cbn.
    destruct (c =? 10) eqn:E; [apply Z.eqb_eq in E; congruence|].
    rewrite IH; [done..|cbn in Hlen; lia].
Qed.


Lemma fgets_read_full P : forall room rest,
  length P = room -> (10 ∉ P) -> fgets_read room (P ++ rest) = (P, rest).
Proof.
  intros room rest <-. revert rest.
  induction P as [|c P IH]; intros rest Hnl; [by destruct rest|].
  apply not_elem_of_cons in Hnl as [Hc Hnl]. cbn [length app fgets_read].
  destruct (c =? 10) eqn:E; [apply Z.eqb_eq in E; congruence|].
  by rewrite IH.
Qed.

Lemma fgets_line L rest :
  10 ∉ L -> (length L <= 1022)%nat ->
  fgets 1024 (L ++ 10 :: rest) = (Ptr (L ++ [10; 0]), rest).
Proof.
  intros Hnl Hlen. unfold fgets.
  destruct (L ++ 10 :: rest) eqn:E; [by destruct L|]. rewrite <- E.
  rewrite fgets_read_line by (done || cbn; lia).
  by rewrite <- app_assoc.
Qed.



Lemma fgets_read_length room : forall file l rest,
  fgets_read room file = (l, rest) ->
  (length l + length rest)%nat = length file /\
  (file <> [] -> (0 < room)%nat -> (0 < length l)%nat).
Proof.
  intros file. revert room.
  induction file as [|c file IH]; intros room l rest.
  - destruct room; cbn; intros [= <- <-]; split; (done || cbn; lia).
  - destruct room as [|room]; cbn [fgets_read].
    + intros [= <- <-]. split; [done|lia].
    + destruct (c =? 10); [intros [= <- <-]; cbn; split; lia|].
      destruct (fgets_read room file) as [l1 r1] eqn:E.
      intros [= <- <-]. destruct (IH _ _ _ E) as [Hlen _].
      cbn. split; lia.
Qed.

(** The loop never uses up a fuel above the length of the file: with any
    two such fuels it gives the same result. *)
Lemma add_from_file_loop_fuel fuel : forall fuel' tbl file count,
  (length file < fuel)%nat -> (length file < fuel')%nat ->
  add_from_file_loop fuel tbl file count =
  add_from_file_loop fuel' tbl file count.
Proof.
  induction fuel as [|fuel IH]; intros fuel' tbl file count Hf Hf'; [lia|].
  destruct fuel' as [|fuel']; [lia|]. cbn [add_from_file_loop].
  unfold fgets. destruct file as [|c file]; [done|].
  destruct (fgets_read (1024 - 1) (c :: file)) as [l rest] eqn:E.
  destruct (fgets_read_length _ _ _ _ E) as [Hlen Hpos].
  specialize (Hpos ltac:(done) ltac:(lia)).
  destruct (add_from_file_step tbl count (l ++ [0])) as [[t1 c1]|]; [|done].
  cbn. apply IH; lia.
Qed.




(** ** Claims about the loaders *)

Lemma hex_no_newline h : Forall hex_digit h -> 10 ∉ h.
Proof.
  induction 1 as [|c h Hc%hex_digit_cases _ IH]; [apply not_elem_of_nil|].
  apply not_elem_of_cons. split; [lia|done].
Qed.

Lemma cstr_id T : Forall (fun c => c <> 0) T -> cstr T = T.
Proof.
  intros H. rewrite <- (app_nil_r T) at 1. rewrite cstr_app by done.
  cbn. apply app_nil_r.
Qed.

(** A line that is a hex key, or a hex key and an equals sign. *)
Lemma buffer_line_bare tbl h suffix :
  Forall hex_digit h -> (1 <= length h <= 510)%nat ->
  suffix = [] \/ suffix = [61] ->
  thingy_table_add_from_string tbl (h ++ suffix ++ [0]) =
    (r ← thingy_table_delete tbl (Z.of_nat ((length h + 1) / 2))
           (Ptr (hex_key h (length h)));
     Some (16 + fst r, snd r)) /\
  buffer_line tbl (h ++ suffix) =
    (r ← thingy_table_delete tbl (Z.of_nat ((length h + 1) / 2))
           (Ptr (hex_key h (length h)));
     Some (Rejected (16 + fst r), snd r)).
Proof.
  intros Hh Hlen Hs.
  assert (h <> []) as Hne by (intros ->; cbn in Hlen; lia).
  assert (thingy_table_add_from_string tbl (h ++ suffix ++ [0]) =
    (r ← thingy_table_delete tbl (Z.of_nat ((length h + 1) / 2))
           (Ptr (hex_key h (length h)));
     Some (16 + fst r, snd r))) as Hstr.
  { rewrite add_from_string_hex; [|done..|by destruct Hs as [-> | ->]; cbn; auto].
    rewrite after_strtok_hex by done. cbv zeta.
    rewrite keylen_small by lia.
    by destruct Hs as [-> | ->]. }
  split; [done|]. unfold buffer_line.
  assert (Forall (fun c => c <> 0) (h ++ suffix)) as Hnz.
  { apply Forall_app. split; [by apply token_char_nonzero, hex_digit_token|].
    destruct Hs as [-> | ->]; repeat constructor; lia. }
  rewrite cstr_id by done.
  assert (forallb whitespace (h ++ suffix) = false /\
          (nth O (h ++ suffix) 0 =? 35) = false /\
          skip_whitespace (h ++ suffix) = h ++ suffix) as (-> & -> & ->).
  { destruct h as [|c h]; [done|].
    apply Forall_cons_1 in Hh as [Hc%hex_digit_cases Hh].
    cbn [app forallb nth skip_whitespace]. unfold whitespace at 1.
    destruct (c =? 32) eqn:E32; [apply Z.eqb_eq in E32; lia|].
    destruct (c =? 9) eqn:E9; [apply Z.eqb_eq in E9; lia|].
    destruct (c =? 35) eqn:E35; [apply Z.eqb_eq in E35; lia|]. done. }
  rewrite <- app_assoc, Hstr.
  destruct (thingy_table_delete _ _ _) as [[rc t]|] eqn:Ed; [|done].
  cbn. apply delete_rc in Ed.
  destruct (16 + rc =? 0) eqn:E0; [apply Z.eqb_eq in E0; lia|done].
Qed.

(** C10: a line that is a bare HEXKEY, or a HEXKEY and an equals sign with
    nothing after it, goes to [delete]: its return code is 16 plus that of
    [delete], so 16 when the entry was deleted and 17 when there was none,
    never 0; and the file loop leaves its count as it was on such a line,
    so a file of one such line reports the count 0. *)
Theorem bare_key_deletes tbl h count :
  Forall hex_digit h -> (1 <= length h <= 510)%nat ->
  let keylen := Z.of_nat ((length h + 1) / 2) in
  let key := hex_key h (length h) in
  let deleted :=
    r ← thingy_table_delete tbl keylen (Ptr key); Some (16 + fst r, snd r) in
  thingy_table_add_from_string tbl (h ++ [0]) = deleted /\
  thingy_table_add_from_string tbl (h ++ [61; 0]) = deleted /\
  (forall rc tbl',
     deleted = Some (rc, tbl') ->
     (rc = 16 \/ rc = 17) /\
     (rc = 16 <-> thingy_table_delete tbl keylen (Ptr key) = Some (0, tbl'))) /\
  add_from_file_step tbl count (h ++ [10; 0]) =
    (r ← deleted; Some (snd r, count)) /\
  add_from_file_step tbl count (h ++ [61; 10; 0]) =
    (r ← deleted; Some (snd r, count)) /\
  thingy_table_add_from_file tbl (Ptr (h ++ [10])) (Ptr count) =
    (r ← deleted; Some (0, snd r, Ptr 0)).
Proof.
  intros Hh Hlen keylen key deleted.
  destruct (buffer_line_bare tbl h [] Hh Hlen) as [Hs1 Hl1]; [by left|].
  destruct (buffer_line_bare tbl h [61] Hh Hlen) as [Hs2 Hl2]; [by right|].
  rewrite app_nil_r in Hl1. cbn [app] in Hs1, Hs2.
  fold keylen key in Hs1, Hs2, Hl1, Hl2. fold deleted in Hs1, Hs2.
  pose proof (hex_no_newline h Hh) as Hnl.
  split_and!; [done..| | | |].
  - unfold deleted. intros rc tbl'.
    destruct (thingy_table_delete tbl keylen (Ptr key)) as [[rc0 t0]|] eqn:Ed;
      [|done].
    cbn. intros [= <- <-]. pose proof (delete_rc _ _ _ _ _ Ed) as Hrc.
    split; [lia|]. split; [intros ?; f_equal; f_equal; lia|].
    intros [= -> ]. done.
  - rewrite add_from_file_step_line by done. rewrite Hl1. unfold deleted.
    destruct (thingy_table_delete tbl keylen (Ptr key)) as [[rc0 t0]|];
      [|done]. cbn. do 2 f_equal. lia.
  - change (h ++ [61; 10; 0]) with (h ++ [61] ++ [10; 0]).
    rewrite app_assoc. rewrite add_from_file_step_line.
    + rewrite Hl2. unfold deleted.
      destruct (thingy_table_delete tbl keylen (Ptr key)) as [[rc0 t0]|];
        [|done]. cbn. do 2 f_equal. lia.
    + intros [?|Hin]%elem_of_app; [done|].
      apply list_elem_of_singleton in Hin. done.
  - unfold thingy_table_add_from_file. rewrite length_app. cbn [length].
    replace (S (length h + 1)) with (S (S (length h))) by lia.
    cbn [add_from_file_loop]. rewrite fgets_line by (done || lia).
    rewrite add_from_file_step_line by done. rewrite Hl1. unfold deleted.
    destruct (thingy_table_delete tbl keylen (Ptr key)) as [[rc0 t0]|];
      [|done]. cbn. done.
Qed.

Lemma bare_key_deletes_witness :
  (Forall hex_digit [49; 50; 51] /\ (1 <= 3 <= 510)%nat) /\
  exists tbl',
    thingy_table_delete table_123 2 (Ptr [1; 35]) = Some (0, tbl') /\
    thingy_table_add_from_string table_123 (lit "123") = Some (16, tbl') /\
    thingy_table_add_from_string table_123 (lit "123=") = Some (16, tbl') /\
    thingy_table_add_from_file table_123 (Ptr [49; 50; 51; 10]) (Ptr 5) =
      Some (0, tbl', Ptr 0).
Proof.
  assert (Forall hex_digit [49; 50; 51]) as H1
    by (repeat constructor; reflexivity).
  assert (1 <= length [49; 50; 51] <= 510)%nat as H2 by (cbn; lia).
  pose proof (bare_key_deletes table_123 [49; 50; 51] 5 H1 H2)
    as (E1 & E2 & _ & _ & _ & F).
  split; [by split|]. eexists. split; [reflexivity|].
  split; [exact E1|]. split; [exact E2|exact F].
Defined.





(** What the file of [six_lines] and a last line [43=C] without a newline
    gives: the kinds of the lines, their outcomes, and the count 3 for the
    four lines applied. *)
Example load_six_lines :
  map classify (six_lines ++ [[52; 51; 61; 67]]) =
    [Comment; Assigns [65] [65]; Blank; Assigns [66] [66]; Deletes [65];
     Malformed; Assigns [67] [67]] /\
  (fst <$> load_lines thingy_table_init (six_lines ++ [[52; 51; 61; 67]])) =
    Some [Ignored; Assigned; Ignored; Assigned; Deleted 0; Skipped;
          Assigned] /\
  applied_count [Ignored; Assigned; Ignored; Assigned; Deleted 0; Skipped;
                 Assigned] = 4 /\
  (snd <$> thingy_table_add_from_file thingy_table_init
             (Ptr (join_lines six_lines ++ [52; 51; 61; 67])) (Ptr 7)) =
    Some (Ptr 3).
Proof. split_and!; vm_compute; reflexivity. Qed.

(** A line of 1023 characters is still read whole: its newline comes in a
    buffer of its own, which is passed over. *)
Example load_full_line :
  length full_line = 1023%nat /\
  (fst <$> load_lines thingy_table_init [full_line]) = Some [Assigned] /\
  (snd <$> thingy_table_add_from_file thingy_table_init
             (Ptr (join_lines [full_line])) (Ptr 0)) = Some (Ptr 1).
Proof. split_and!; vm_compute; reflexivity. Qed.


(** ** Claims about the parser *)

(** A part of the input that is scanned to its end without an error can be
    cut off: the scan of the whole goes on after it. *)
Lemma parse_from_app n : forall pre pos acc bytes s,
  (length pre <= n)%nat ->
  parse_from pos pre acc = Parsed bytes ->
  parse_from pos (pre ++ s) acc = parse_from (pos + length pre) s bytes.
Proof.
  induction n as [|n IH]; intros pre pos acc bytes s Hn.
  - destruct pre; [|cbn in Hn; lia]. cbn. intros [= ->].
    by rewrite Nat.add_0_r.
  - destruct pre as [|c rest]; [cbn; intros [= ->]; by rewrite Nat.add_0_r|].
    cbn [parse_from app]. destruct (c =? 92).
    + destruct rest as [|e rest']; [done|]. cbn [app].
      destruct (e =? 92).
      * intros H. apply (IH _ _ _ _ s) in H; [|cbn in Hn; lia]. rewrite H.
        f_equal. cbn. lia.
      * destruct (e =? 120); [|done].
        destruct rest' as [|h1 [|h2 rest'']]; [done..|]. cbn [app].
        destruct (is_xdigit h1 && is_xdigit h2); [|done].
        intros H. apply (IH _ _ _ _ s) in H; [|cbn in Hn; lia]. rewrite H.
        f_equal. cbn. lia.
    + intros H. apply (IH _ _ _ _ s) in H; [|cbn in Hn; lia]. rewrite H.
      f_equal. cbn. lia.
Qed.

(** C7: when the scan reaches a backslash and an x that are followed by
    two characters of which at least one is not a hex digit, the result is
    InvalidHex, and the location reported is that of the offending
    character: it is one of the two characters, the character there is no
    hex digit, and when it is the second of the two, the first one is a
    hex digit. *)
Theorem invalid_hex_located_at_offending_character pre bytes h1 h2 rest :
  Forall (fun c => c <> 0) pre -> h1 <> 0 -> h2 <> 0 ->
  editor_parse_search_string pre = Parsed bytes ->
  is_xdigit h1 && is_xdigit h2 = false ->
  exists location,
    editor_parse_search_string (pre ++ 92 :: 120 :: h1 :: h2 :: rest) =
      Failed PARSE_INVALID_HEX location /\
    (location = length pre + 2 \/ location = length pre + 3)%nat /\
    is_xdigit (nth location (pre ++ 92 :: 120 :: h1 :: h2 :: rest) 0)
      = false /\
    (location = (length pre + 3)%nat -> is_xdigit h1 = true).
Proof.
  intros Hpre Hh1 Hh2 Hp Hx. unfold editor_parse_search_string in *.
  rewrite cstr_id in Hp by done.
  exists (if is_xdigit h1 then length pre + 3 else length pre + 2)%nat.
  split_and!.
  - change (pre ++ 92 :: 120 :: h1 :: h2 :: rest)
      with (pre ++ [92; 120; h1; h2] ++ rest).
    rewrite app_assoc, cstr_app.
    2:{ apply Forall_app. split; [done|]. repeat constructor; (done || lia). }
    rewrite <- app_assoc.
    rewrite (parse_from_app (length pre) pre O [] bytes) by done.
    cbn. by rewrite Hx.
  - destruct (is_xdigit h1); auto.
  - destruct (is_xdigit h1) eqn:E1; rewrite app_nth2 by lia.
    + replace (length pre + 3 - length pre)%nat with 3%nat by lia.
      cbn [nth]. exact Hx.
    + by replace (length pre + 2 - length pre)%nat with 2%nat by lia.
  - destruct (is_xdigit h1); [done|lia].
Qed.

Lemma invalid_hex_located_at_offending_character_witness :
  (Forall (fun c => c <> 0) [97; 98] /\ 65 <> 0 /\ 90 <> 0 /\
   editor_parse_search_string [97; 98] = Parsed [97; 98] /\
   is_xdigit 65 && is_xdigit 90 = false) /\
  exists location,
    editor_parse_search_string ([97; 98] ++ 92 :: 120 :: 65 :: 90 :: [99]) =
      Failed PARSE_INVALID_HEX location /\
    (location = length [97; 98] + 2 \/ location = length [97; 98] + 3)%nat /\
    is_xdigit (nth location ([97; 98] ++ 92 :: 120 :: 65 :: 90 :: [99]) 0)
      = false /\
    (location = (length [97; 98] + 3)%nat -> is_xdigit 65 = true).
Proof.
  assert (Forall (fun c => c <> 0) [97; 98]) as H1 by (repeat constructor; lia).
  assert (65 <> 0) as H2 by lia.
  assert (90 <> 0) as H3 by lia.
  assert (editor_parse_search_string [97; 98] = Parsed [97; 98]) as H4
    by reflexivity.
  assert (is_xdigit 65 && is_xdigit 90 = false) as H5 by reflexivity.
  split; [by split_and!|].
  exact (invalid_hex_located_at_offending_character [97; 98] [97; 98] 65 90
           [99] H1 H2 H3 H4 H5).
Defined.

(** The examples of the specification: a mixed input, an invalid hex code
    and a backslash at the end; and an invalid hex code whose first
    character is a hex digit: the location is that of the second. *)
Example parse_examples :
  editor_parse_search_string [97; 98; 92; 120; 52; 49; 92; 92; 99; 0] =
    Parsed [97; 98; 65; 92; 99] /\
  editor_parse_search_string [92; 120; 90; 90; 0] =
    Failed PARSE_INVALID_HEX 2 /\
  editor_parse_search_string [97; 92; 0] = Failed PARSE_UNEXPECTED_END 1 /\
  editor_parse_search_string [92; 120; 65; 90; 0] =
    Failed PARSE_INVALID_HEX 3.
Proof. split_and!; reflexivity. Qed.

(** ** Claims about the history *)

Lemma insert_at_inverse buf offset byte after buf' a :
  insert_at buf offset byte after = inr (buf', a) ->
  apply_inverse buf' a = buf.
Proof.
  unfold insert_at. set (pos := if after then S offset else offset).
  destruct (pos <=? length buf)%nat eqn:E; [|done]. apply Nat.leb_le in E.
  intros [= <- <-]. cbn [apply_inverse length].
  assert (length (take pos buf) = pos) as Hl by (rewrite length_take; lia).
  rewrite take_app_length' by done.
  rewrite (cons_middle byte), app_assoc.
  rewrite drop_app_length' by (rewrite length_app; cbn; lia).
  apply take_drop.
Qed.

Lemma delete_at_inverse buf offset buf' a :
  delete_at buf offset = inr (buf', a) -> apply_inverse buf' a = buf.
Proof.
  unfold delete_at. destruct buf as [|b0 buf0] eqn:Eb; [done|].
  rewrite <- Eb. clear Eb.
  destruct (buf !! offset) as [x|] eqn:Ex; [|done].
  intros [= <- <-]. cbn [apply_inverse].
  pose proof (lookup_lt_Some _ _ _ Ex) as Hlt.
  assert (length (take offset buf) = offset) as Hl
    by (rewrite length_take; lia).
  rewrite take_app_length' by done.
  rewrite drop_app_length' by done.
  cbn [app]. by apply take_drop_middle.
Qed.

Lemma replace_at_inverse buf offset byte buf' a :
  replace_at buf offset byte = inr (buf', a) -> apply_inverse buf' a = buf.
Proof.
  unfold replace_at. destruct (buf !! offset) as [x|] eqn:Ex; [|done].
  intros [= <- <-]. cbn [apply_inverse length app].
  pose proof (lookup_lt_Some _ _ _ Ex) as Hlt.
  rewrite take_insert_ge by lia.
  replace (offset + 1)%nat with (S offset) by lia.
  rewrite drop_insert_lt by lia. by apply take_drop_middle.
Qed.

(** A mutation pushes its action, and the inverse of the action gives the
    old contents back. *)
Lemma mutate_inverse e m e' :
  mutate e m = inr e' ->
  exists a, undo_list e' = a :: undo_list e /\
            apply_inverse (contents e') a = contents e.
Proof.
  unfold mutate. destruct m as [offset x after|offset|offset x|offset amount].
  - destruct (insert_at _ _ _ _) as [|[buf a]] eqn:E; [done|].
    intros [= <-]. exists a. split; [done|]. by eapply insert_at_inverse.
  - destruct (delete_at _ _) as [|[buf a]] eqn:E; [done|].
    intros [= <-]. exists a. split; [done|]. by eapply delete_at_inverse.
  - destruct (replace_at _ _ _) as [|[buf a]] eqn:E; [done|].
    intros [= <-]. exists a. split; [done|]. by eapply replace_at_inverse.
  - destruct (increment_at _ _ _) as [|[buf a]] eqn:E; [done|].
    intros [= <-]. exists a. split; [done|]. unfold increment_at in E.
    destruct (contents e !! offset); [|done]. by eapply replace_at_inverse.
Qed.

Lemma undo_times_last n : forall e e1,
  undo_times n e = inr e1 ->
  undo_times (S n) e = editor_undo e1.
Proof.
  induction n as [|n IH]; intros e e1.
  - cbn. intros [= ->]. by destruct (editor_undo e1).
  - cbn [undo_times]. destruct (editor_undo e) as [|e0]; [done|].
    intros H. apply IH in H. exact H.
Qed.

(** C8: after any sequence of successful mutations, as many calls of
    [undo] succeed and give back the contents, and so the length, that the
    buffer had before the sequence; the undo stack is back as well. *)
Theorem undo_restores_contents e ms e' :
  mutate_all e ms = inr e' ->
  exists e0,
    undo_times (length ms) e' = inr e0 /\
    contents e0 = contents e /\
    length (contents e0) = length (contents e) /\
    undo_list e0 = undo_list e.
Proof.
  revert e. induction ms as [|m ms IH]; intros e.
  - cbn. intros [= <-]. by exists e.
  - cbn [mutate_all]. destruct (mutate e m) as [|e1] eqn:Em; [done|].
    intros (e2 & Hu & Hc & _ & Hl)%IH.
    destruct (mutate_inverse _ _ _ Em) as (a & Hl1 & Hinv).
    cbn [length]. rewrite (undo_times_last _ _ _ Hu).
    unfold editor_undo. rewrite Hl, Hl1. eexists. split; [done|]. cbn.
    rewrite Hc, Hinv. done.
Qed.

Lemma undo_restores_contents_witness :
  let e := {| contents := [1; 255; 3]; dirty := false; undo_list := [];
              redo_list := [] |} in
  let e' := {| contents := [9; 7; 0]; dirty := true;
               undo_list := [Replace 2 [255] [0]; Replace 1 [1] [7];
                             Delete 3 [3]; Insert 0 [9]];
               redo_list := [] |} in
  mutate_all e
    [ editor_insert_byte_at_offset 0 9 false;
      editor_delete_char_at_offset 3;
      editor_replace_byte_at_offset 1 7;
      editor_increment_byte 2 1 ] = inr e' /\
  exists e0,
    undo_times 4 e' = inr e0 /\
    contents e0 = [1; 255; 3] /\
    length (contents e0) = 3%nat /\
    undo_list e0 = [].
Proof.
  intros e e'.
  assert (mutate_all e
    [ editor_insert_byte_at_offset 0 9 false;
      editor_delete_char_at_offset 3;
      editor_replace_byte_at_offset 1 7;
      editor_increment_byte 2 1 ] = inr e') as H by reflexivity.
  split; [exact H|].
  exact (undo_restores_contents e _ e' H).
Defined.

(** * Further properties of the table *)

(** ** Other keys are left alone *)

Lemma strdup_whole k :
  length (strdup k) = length k -> strdup k = k.
Proof.
  intros H. destruct (strdup_is_prefix k) as [r Hr].
  assert (length r = O) as Hl.
  { apply (f_equal length) in Hr. rewrite length_app in Hr. lia. }
  destruct r; [|done]. by rewrite app_nil_r in Hr.
Qed.

Lemma memcmp_long a b n :
  (n <= length a)%nat -> (n <= length b)%nat -> is_Some (memcmp a b n).
Proof.
  revert a b. induction n as [|n IH]; intros a b Ha Hb; [by eexists|].
  destruct a as [|x a], b as [|y b]; cbn in *; try lia.
  destruct (x =? y); [apply IH; lia|by eexists].
Qed.

(** Two keys of their lengths that both compare equal to the stored key of
    one node are the same key. *)
Lemma memcmp_same_node s k k' n :
  length k = n -> length k' = n ->
  memcmp s k n = Some 0 -> memcmp k' s n = Some 0 -> k' = k.
Proof.
  intros Hk Hk' [H1 _]%memcmp_zero_take [H2 _]%memcmp_zero_take.
  rewrite (take_ge k), H1 in * by lia. by rewrite (take_ge k') in H2 by lia.
Qed.

(** A node that [search] finds for another key is found after [assign] as
    it was before. *)
Lemma assign_chain_search_other c len k value len' k' v' : forall c' added,
  length k = Z.to_nat len -> length k' = Z.to_nat len' ->
  (len', k') <> (len, k) ->
  search_chain c len' k' = Some (Ptr v') ->
  assign_chain c len k value = Some (c', added) ->
  search_chain c' len' k' = Some (Ptr v').
Proof.
  intros c' added Hk Hk' Hne. revert c' added.
  induction c as [| |n c IH]; intros c' added; cbn [search_chain assign_chain];
    [done..|].
  destruct (linked_list.length n =? len) eqn:El.
  - destruct (memcmp (linked_list.key n) k (Z.to_nat len)) as [r|] eqn:Em;
      [|by intros _]. cbn [mbind option_bind].
    destruct (r =? 0) eqn:Er.
    + destruct (strdup_ptr value); [|by intros _].
      cbn [mbind option_bind]. intros Hs [= <- <-].
      cbn [search_chain linked_list.length linked_list.key linked_list.value].
      revert Hs.
      destruct (linked_list.length n =? len') eqn:El'; [|done].
      destruct (memcmp k' (linked_list.key n) (Z.to_nat len')) as [r'|]
        eqn:Em'; [|done]. cbn [mbind option_bind].
      destruct (r' =? 0) eqn:Er'; [|done]. exfalso.
      apply Z.eqb_eq in El, El', Er, Er'. subst r r'.
      assert (len' = len) as -> by lia. apply Hne. f_equal.
      by eapply memcmp_same_node.
    + destruct (assign_chain c len k value) as [[c1 a1]|]; [|by intros _].
      intros Hs [= <- <-]. cbn [search_chain]. revert Hs.
      destruct (linked_list.length n =? len');
        [|intros Hs; exact (IH _ _ Hs eq_refl)].
      destruct (memcmp k' (linked_list.key n) (Z.to_nat len')) as [r'|];
      [|done].
      cbn [mbind option_bind].
      destruct (r' =? 0); [done|intros Hs; exact (IH _ _ Hs eq_refl)].
  - destruct (assign_chain c len k value) as [[c1 a1]|]; [|by intros _].
    intros Hs [= <- <-]. cbn [search_chain]. revert Hs.
    destruct (linked_list.length n =? len');
      [|intros Hs; exact (IH _ _ Hs eq_refl)].
    destruct (memcmp k' (linked_list.key n) (Z.to_nat len')) as [r'|];
      [|done].
    cbn [mbind option_bind].
    destruct (r' =? 0); [done|intros Hs; exact (IH _ _ Hs eq_refl)].
Qed.

(** X3: [assign] does not lose or change another stored entry: a key that
    [search] finds, other than the one assigned, is found with the same
    value after the call, in the direct slots and in the chains, also
    when the call raises [longest_key].  For any table. *)
Theorem assign_keeps_other_keys tbl len k value rc tbl' len' k' v' :
  length k = Z.to_nat len -> length k' = Z.to_nat len' ->
  (len', k') <> (len, k) ->
  thingy_table_search tbl len' (Ptr k') = Some (Ptr v') ->
  thingy_table_assign tbl len (Ptr k) value = Some (rc, tbl') ->
  thingy_table_search tbl' len' (Ptr k') = Some (Ptr v').
Proof.
  intros Hk Hk' Hne Hs Ha.
  pose proof (assign_longest_key_le _ _ _ _ _ _ Ha) as Hlk.
  revert Hs. unfold thingy_table_search.
  destruct (len' =? 0); [done|].
  destruct (len' >? longest_key tbl) eqn:Egt; [done|].
  assert ((len' >? longest_key tbl') = false) as ->.
  { rewrite Z.gtb_ltb in *. apply Z.ltb_ge in Egt. apply Z.ltb_ge. lia. }
  destruct (k' !! O) as [b|] eqn:Hb; [|by destruct (len' =? 1)].
  cbn [mbind option_bind].
  revert Ha. unfold thingy_table_assign.
  destruct (len =? 0); [by intros [= _ <-]|]. cbn [deref mbind option_bind].
  destruct (k !! O) as [k0|] eqn:Ek0; [|by destruct (len =? 1)].
  cbn [mbind option_bind].
  destruct (len =? 1) eqn:E1.
  - apply Z.eqb_eq in E1. subst len.
    assert (forall v, Some (0, raise_longest_key (set_value tbl k0 (Ptr v)) 1)
                      = Some (rc, tbl') ->
      (if len' =? 1 then Some (values tbl b)
       else search_chain (mbseqs tbl b) len' k') = Some (Ptr v') ->
      (if len' =? 1 then Some (values tbl' b)
       else search_chain (mbseqs tbl' b) len' k') = Some (Ptr v')) as Hset.
    { intros v [= _ <-]. rewrite values_raise, mbseqs_raise.
      cbn [values mbseqs set_value].
      destruct (len' =? 1) eqn:E1'; [|done]. apply Z.eqb_eq in E1'. subst len'.
      rewrite upd_other; [done|]. intros ->. apply Hne. f_equal.
      destruct k as [|? [|? ?]], k' as [|? [|? ?]]; cbn in *; try lia.
      congruence. }
    destruct (values tbl k0), (strdup_ptr value); try done; apply Hset.
  - destruct (assign_chain (mbseqs tbl k0) len k value) as [[c' added]|]
      eqn:Ec; [|done].
    intros [= _ <-].
    assert (values (if added
                    then raise_longest_key (set_chain tbl k0 c') len
                    else set_chain tbl k0 c') = values tbl) as ->.
    { destruct added; [rewrite values_raise|]; done. }
    assert (mbseqs (if added
                    then raise_longest_key (set_chain tbl k0 c') len
                    else set_chain tbl k0 c') = upd (mbseqs tbl) k0 c') as ->.
    { destruct added; [rewrite mbseqs_raise|]; done. }
    destruct (len' =? 1); [done|].
    destruct (decide (b = k0)) as [->|Hb0]; [|by rewrite upd_other].
    rewrite upd_same. intros Hs.
    exact (assign_chain_search_other _ _ _ _ _ _ _ _ _ Hk Hk' Hne Hs Ec).
Qed.

Lemma assign_keeps_other_keys_witness :
  (length [65] = Z.to_nat 1 /\ length [1; 35] = Z.to_nat 2 /\
   (2, [1; 35]) <> (1, [65]) /\
   thingy_table_search table_123 2 (Ptr [1; 35]) = Some (Ptr (lit "x"))) /\
  exists tbl',
    thingy_table_assign table_123 1 (Ptr [65]) (Ptr (lit "A")) =
      Some (0, tbl') /\
    thingy_table_search tbl' 2 (Ptr [1; 35]) = Some (Ptr (lit "x")).
Proof.
  assert ((2, [1; 35]) <> (1, [65])) as Hne by discriminate.
  split; [by split_and!|].
  eexists. split; [reflexivity|].
  exact (assign_keeps_other_keys table_123 1 [65] (Ptr (lit "A")) 0 _
           2 [1; 35] (lit "x") eq_refl eq_refl Hne eq_refl eq_refl).
Defined.

(** ** [delete] and the other keys, [delete] and [search] *)

Lemma delete_chain_search_other c len k len' k' : forall c',
  length k = Z.to_nat len -> length k' = Z.to_nat len' ->
  (len', k') <> (len, k) ->
  delete_chain c len k = Some (Ptr c') ->
  search_chain c' len' k' = search_chain c len' k'.
Proof.
  intros c' Hk Hk' Hne. revert c'.
  induction c as [| |n c IH]; intros c'; cbn; [done..|].
  destruct (linked_list.length n =? len) eqn:El.
  - destruct (memcmp k (linked_list.key n) (Z.to_nat len)) as [r|] eqn:Em;
      [|done]. cbn.
    destruct (r =? 0) eqn:Er.
    + intros [= <-]. apply Z.eqb_eq in El, Er. subst r.
      destruct (linked_list.length n =? len') eqn:El'; [|done].
      apply Z.eqb_eq in El'. assert (len' = len) as -> by lia.
      pose proof Em as (_ & _ & Hlong)%memcmp_zero_take.
      destruct (memcmp_long k' (linked_list.key n) (Z.to_nat len))
        as [r' Hr']; [lia|done|].
      rewrite Hr'. cbn. destruct (r' =? 0) eqn:Er'; [|done]. exfalso.
      apply Z.eqb_eq in Er'. subst r'. apply Hne. f_equal.
      apply memcmp_zero_swap in Em.
      exact (memcmp_same_node _ _ _ _ Hk Hk' Em Hr').
    + destruct (delete_chain c len k) as [[|c1]|] eqn:Ed; [done| |done]. cbn.
      intros [= <-]. cbn. by rewrite (IH _ eq_refl).
  - destruct (delete_chain c len k) as [[|c1]|] eqn:Ed; [done| |done]. cbn.
    intros [= <-]. cbn. by rewrite (IH _ eq_refl).
Qed.

(** X4: [delete] does not change what [search] returns for any other key:
    the entries that stay keep their values and stay found, in the direct
    slots and in the chains. *)
Theorem delete_keeps_other_keys tbl len k rc tbl' len' k' :
  length k = Z.to_nat len -> 1 <= len' -> length k' = Z.to_nat len' ->
  (len', k') <> (len, k) ->
  thingy_table_delete tbl len (Ptr k) = Some (rc, tbl') ->
  thingy_table_search tbl' len' (Ptr k') = thingy_table_search tbl len' (Ptr k').
Proof.
  intros Hk Hlen' Hk' Hne Hd.
  pose proof (delete_longest_key _ _ _ _ _ Hd) as Hlk.
  unfold thingy_table_search. rewrite Hlk.
  destruct (len' =? 0); [done|]. destruct (len' >? longest_key tbl); [done|].
  assert (exists b, k' !! O = Some b) as [b Hb].
  { destruct k' as [|b ?]; [cbn in Hk'; lia|by exists b]. }
  rewrite Hb. cbn [mbind option_bind].
  revert Hd. unfold thingy_table_delete.
  destruct (len =? 0); [by intros [= _ <-]|].
  destruct (len >? longest_key tbl); [by intros [= _ <-]|].
  destruct (k !! O) as [k0|] eqn:Ek0; [|by destruct (len =? 1)]. cbn.
  destruct (len =? 1) eqn:E1.
  - apply Z.eqb_eq in E1. subst len.
    destruct (values tbl k0) eqn:Ev; intros [= _ <-]; [done|]. cbn.
    destruct (len' =? 1) eqn:E1'; [|done]. apply Z.eqb_eq in E1'. subst len'.
    f_equal. apply upd_other. intros ->. apply Hne. f_equal.
    destruct k as [|? [|? ?]], k' as [|? [|? ?]]; cbn in *; try lia.
    congruence.
  - destruct (delete_chain (mbseqs tbl k0) len k) as [[|c']|] eqn:Ed; cbn;
      [by intros [= _ <-]| |done].
    intros [= _ <-]. cbn. destruct (len' =? 1); [done|].
    destruct (decide (b = k0)) as [->|Hb0]; [|by rewrite upd_other].
    rewrite upd_same.
    exact (delete_chain_search_other _ _ _ _ _ _ Hk Hk' Hne Ed).
Qed.

Lemma delete_keeps_other_keys_witness :
  (length [1; 35] = Z.to_nat 2 /\ 1 <= 1 /\ length [1] = Z.to_nat 1 /\
   (1, [1]) <> (2, [1; 35])) /\
  exists tbl',
    thingy_table_delete table_123 2 (Ptr [1; 35]) = Some (0, tbl') /\
    thingy_table_search tbl' 1 (Ptr [1]) =
    thingy_table_search table_123 1 (Ptr [1]).
Proof.
  assert ((1, [1]) <> (2, [1; 35])) as Hne by discriminate.
  split; [by split_and!|].
  eexists. split; [reflexivity|].
  exact (delete_keeps_other_keys table_123 2 [1; 35] 0 _ 1 [1]
           eq_refl ltac:(lia) eq_refl Hne eq_refl).
Defined.

Lemma delete_chain_agrees c len k : forall r,
  delete_chain c len k = Some r ->
  match r with
  | NULL => search_chain c len k = Some NULL
  | Ptr _ => exists v, search_chain c len k = Some (Ptr v)
  end.
Proof.
  induction c as [| |n c IH]; intros r; cbn; [by intros [= <-]|done|].
  destruct (linked_list.length n =? len).
  - destruct (memcmp k (linked_list.key n) (Z.to_nat len)) as [d|]; [|done].
    cbn. destruct (d =? 0).
    + intros [= <-]. by eexists.
    + destruct (delete_chain c len k) as [r'|]; [|done]. cbn. intros [= <-].
      specialize (IH _ eq_refl). by destruct r'.
  - destruct (delete_chain c len k) as [r'|]; [|done]. cbn. intros [= <-].
    specialize (IH _ eq_refl). by destruct r'.
Qed.

(** X5: the return code of [delete] tells what [search] saw before: 0 when
    the key was found, and 1, with the table left as it was, when [search]
    returned [NULL]. *)
Theorem delete_agrees_with_search tbl len key rc tbl' :
  thingy_table_delete tbl len key = Some (rc, tbl') ->
  (rc = 0 /\ exists v, thingy_table_search tbl len key = Some (Ptr v)) \/
  (rc = 1 /\ tbl' = tbl /\ thingy_table_search tbl len key = Some NULL).
Proof.
  unfold thingy_table_delete, thingy_table_search.
  destruct key as [|k]; [intros [= <- <-]; by right|].
  destruct (len =? 0); [intros [= <- <-]; by right|].
  destruct (len >? longest_key tbl); [intros [= <- <-]; by right|].
  destruct (k !! O) as [k0|]; [|by destruct (len =? 1)]. cbn.
  destruct (len =? 1).
  - destruct (values tbl k0) eqn:Ev; intros [= <- <-]; [by right|left].
    split; [done|by eexists].
  - destruct (delete_chain (mbseqs tbl k0) len k) as [r|] eqn:Ed; [|done]. cbn.
    apply delete_chain_agrees in Ed.
    destruct r; intros [= <- <-]; [by right|by left].
Qed.

Lemma delete_agrees_with_search_witness :
  exists tbl',
    thingy_table_delete table_123 2 (Ptr [1; 35]) = Some (0, tbl') /\
    ((0 = 0 /\
      exists v, thingy_table_search table_123 2 (Ptr [1; 35]) = Some (Ptr v)) \/
     (0 = 1 /\ tbl' = table_123 /\
      thingy_table_search table_123 2 (Ptr [1; 35]) = Some NULL)).
Proof.
  eexists. split; [reflexivity|].
  exact (delete_agrees_with_search table_123 2 (Ptr [1; 35]) 0 _ eq_refl).
Defined.

(** ** The round trip on one key *)

(** X1: the round trip on a key that [strdup] copies whole, in a state
    that is fresh for it (the key has one byte, or the chain under its
    first byte is [NULL]): [assign] returns 0, [search] then returns the
    copy of the value, and [delete] returns 0.  After that [search]
    returns [NULL] for a one-byte key; for a longer key the chain is left
    as the unwritten [next] of the node that was freed. *)
Theorem whole_key_assign_search_delete tbl len k k0 v :
  reachable tbl -> 1 <= len <= 255 -> length k = Z.to_nat len ->
  k !! O = Some k0 -> early_nul k = false -> fresh_for tbl len k = true ->
  exists tbl1 tbl2,
    thingy_table_assign tbl len (Ptr k) (Ptr v) = Some (0, tbl1) /\
    thingy_table_search tbl1 len (Ptr k) = Some (Ptr (strdup v)) /\
    thingy_table_delete tbl1 len (Ptr k) = Some (0, tbl2) /\
    (len = 1 -> thingy_table_search tbl2 len (Ptr k) = Some NULL) /\
    (2 <= len -> mbseqs tbl2 k0 = chain_unwritten).
Proof.
  intros Hwf%reachable_wf Hlen Hk Hk0 Hnul Hf.
  pose proof (assign_fresh_for tbl len k k0 v ltac:(lia) Hk0 Hf) as Ha.
  pose proof (search_after_assign tbl len k Hwf Hlen Hk Hnul _ _ _ Ha) as Hs.
  assert ((len =? 0) = false) as E0 by (apply Z.eqb_neq; lia).
  destruct (len =? 1) eqn:E1.
  - apply Z.eqb_eq in E1. subst len.
    set (tbl1 := raise_longest_key (set_value tbl k0 (Ptr (strdup v))) 1) in *.
    assert (longest_key tbl1 = Z.max (longest_key tbl) 1) as Hlk
      by (unfold tbl1; by rewrite longest_key_raise).
    assert (values tbl1 k0 = Ptr (strdup v)) as Hv.
    { unfold tbl1. rewrite values_raise. cbn. apply upd_same. }
    assert ((1 >? longest_key tbl1) = false) as Egt.
    { rewrite Z.gtb_ltb. apply Z.ltb_ge. lia. }
    exists tbl1, (set_value tbl1 k0 NULL). split_and!; [done..| | |lia].
    + unfold thingy_table_delete. cbn [Z.eqb]. rewrite Egt, Hk0.
      cbn [mbind option_bind]. by rewrite Hv.
    + intros _. unfold thingy_table_search. cbn [Z.eqb longest_key set_value].
      rewrite Egt, Hk0. cbn [mbind option_bind values set_value].
      by rewrite upd_same.
  - apply Z.eqb_neq in E1.
    set (tbl1 := raise_longest_key _ len) in *.
    assert (longest_key tbl1 = Z.max (longest_key tbl) len) as Hlk
      by (unfold tbl1; by rewrite longest_key_raise).
    assert (mbseqs tbl1 k0 =
            chain_node (linked_list.mk len (strdup k) (strdup v))
                       chain_unwritten) as Hc.
    { unfold tbl1. rewrite mbseqs_raise. cbn. apply upd_same. }
    assert ((len >? longest_key tbl1) = false) as Egt.
    { rewrite Z.gtb_ltb. apply Z.ltb_ge. lia. }
    exists tbl1, (set_chain tbl1 k0 chain_unwritten).
    split_and!; [done..| |lia|].
    + unfold thingy_table_delete. rewrite E0, Egt, Hk0.
      destruct (len =? 1) eqn:E1'; [apply Z.eqb_eq in E1'; lia|].
      cbn [mbind option_bind]. rewrite Hc.
      cbn [delete_chain linked_list.length linked_list.key].
      by rewrite Z.eqb_refl, (strdup_no_early_nul k Hnul), <- Hk, memcmp_self.
    + intros _. cbn. apply upd_same.
Qed.

Lemma whole_key_assign_search_delete_witness :
  (reachable table_123 /\ 1 <= 3 <= 255 /\ length [2; 3; 4] = Z.to_nat 3 /\
   [2; 3; 4] !! O = Some 2 /\ early_nul [2; 3; 4] = false /\
   fresh_for table_123 3 [2; 3; 4] = true) /\
  exists tbl1 tbl2,
    thingy_table_assign table_123 3 (Ptr [2; 3; 4]) (Ptr (lit "y")) =
      Some (0, tbl1) /\
    thingy_table_search tbl1 3 (Ptr [2; 3; 4]) =
      Some (Ptr (strdup (lit "y"))) /\
    thingy_table_delete tbl1 3 (Ptr [2; 3; 4]) = Some (0, tbl2) /\
    (3 = 1 -> thingy_table_search tbl2 3 (Ptr [2; 3; 4]) = Some NULL) /\
    (2 <= 3 -> mbseqs tbl2 2 = chain_unwritten).
Proof.
  split; [by split_and!; try exact table_123_reachable|].
  exact (whole_key_assign_search_delete table_123 3 [2; 3; 4] 2 (lit "y")
           table_123_reachable ltac:(lia) eq_refl eq_refl eq_refl eq_refl).
Defined.

(** ** The return codes of a definition line *)

Lemma delete_rc_unchanged tbl len key tbl' :
  thingy_table_delete tbl len key = Some (1, tbl') -> tbl' = tbl.
Proof.
  unfold thingy_table_delete.
  destruct key as [|k]; [by intros [= <-]|].
  destruct (len =? 0); [by intros [= <-]|].
  destruct (len >? longest_key tbl); [by intros [= <-]|].
  destruct (k !! O) as [k0|]; [|by destruct (len =? 1)]. cbn.
  destruct (len =? 1).
  - by destruct (values tbl k0); intros [= <-].
  - destruct (delete_chain (mbseqs tbl k0) len k) as [[|c]|]; [|done..].
    by intros [= <-].
Qed.

(** X6: [thingy_table_add_from_string] returns one of 0, 1, 2, 3, 4, 16 and
    17, and with every code other than 0 (assigned) and 16 (deleted) it
    leaves the table as it was. *)
Theorem add_from_string_codes tbl string rc tbl' :
  thingy_table_add_from_string tbl string = Some (rc, tbl') ->
  rc ∈ [0; 1; 2; 3; 4; 16; 17] /\ (rc <> 0 -> rc <> 16 -> tbl' = tbl).
Proof.
  intros [[-> ?]|[(len & k & value & rc0 & _ & _ & _ & ->)|
                  (len & k & rc0 & _ & _ & Hd & ->)]]%add_from_string_step.
  - split; [|done]. rewrite !elem_of_cons, elem_of_nil. lia.
  - split; [|done]. rewrite !elem_of_cons, elem_of_nil. lia.
  - destruct (delete_rc _ _ _ _ _ Hd) as [->| ->].
    + split; [|lia]. rewrite !elem_of_cons, elem_of_nil. lia.
    + split; [|intros _ _; by eapply delete_rc_unchanged].
      rewrite !elem_of_cons, elem_of_nil. lia.
Qed.

Lemma add_from_string_codes_witness :
  thingy_table_add_from_string table_123 (lit "zz=1") = Some (2, table_123) /\
  (2 ∈ [0; 1; 2; 3; 4; 16; 17] /\ (2 <> 0 -> 2 <> 16 -> table_123 = table_123)).
Proof.
  split; [reflexivity|].
  exact (add_from_string_codes table_123 (lit "zz=1") 2 table_123 eq_refl).
Defined.

(** ** The shapes of a definition line *)

(** X7: a line whose key (the first token, after its slash or star) holds
    a character that is not a hex digit returns 2 and leaves the table as
    it was; a line whose key is made of hex digits never returns 2. *)
Theorem non_hex_key_rejected tbl t rest :
  Forall token_char t -> t <> [] -> after_key rest ->
  (~ Forall hex_digit (key_part t) ->
   thingy_table_add_from_string tbl (t ++ rest) = Some (2, tbl)) /\
  (Forall hex_digit (key_part t) -> forall rc tbl',
   thingy_table_add_from_string tbl (t ++ rest) = Some (rc, tbl') -> rc <> 2).
Proof.
  intros Ht Hne Hr. rewrite add_from_string_unfold, strtok_token by done.
  pose proof (token_char_nonzero _ (key_part_token _ Ht)) as Hnz.
  destruct t as [|p t']; [done|]. split.
  - intros Hnot.
    pose proof (strspn_not_hex _ Hnz Hnot) as Hlt.
    pose proof (strlen_nonzero _ Hnz) as Hlen.
    assert (negb (strspn (key_part (p :: t') ++ [0%Z]) hex_digits =?
                  strlen (key_part (p :: t') ++ [0%Z]))%nat = true) as Hneg.
    { apply negb_true_iff, Nat.eqb_neq. lia. }
    revert Hneg. unfold key_part, after_strtok. cbn [app nth drop].
    destruct (p =? 47), (p =? 42); cbn [orb app]; cbv beta iota zeta;
      rewrite ?drop_0; by intros ->.
  - intros Hh rc tbl'.
    pose proof (strspn_hex _ Hh) as Hspn. pose proof (strlen_hex _ Hh) as Hlen.
    revert Hspn Hlen. unfold key_part, after_strtok. cbn [app nth drop].
    destruct (p =? 47), (p =? 42); cbn [orb app]; cbv beta iota zeta;
      rewrite ?drop_0; intros -> ->; rewrite Nat.eqb_refl; cbn [negb];
      (destruct (_ =? 0)%nat; [by intros [= <- _]|]);
      (destruct (255 <? _)%nat; [by intros [= <- _]|]);
      try (destruct (thingy_table_assign _ _ _ _) as [[? ?]|]; cbn;
           [by intros [= <- _]|done]).
    destruct (strtok NULL (lit "") _) as [[|v] ?].
    + destruct (thingy_table_delete _ _ _) as [[rc0 ?]|] eqn:Ed; [|done]. cbn.
      intros [= <- _]. apply delete_rc in Ed. lia.
    + destruct (thingy_table_assign _ _ _ _) as [[? ?]|]; cbn;
        [by intros [= <- _]|done].
Qed.

Lemma non_hex_key_rejected_witness :
  (Forall token_char [122; 122] /\ [122; 122] <> [] /\
   after_key [61; 49; 0]) /\
  (~ Forall hex_digit (key_part [122; 122]) ->
   thingy_table_add_from_string table_123 ([122; 122] ++ [61; 49; 0]) =
     Some (2, table_123)) /\
  (Forall hex_digit (key_part [122; 122]) -> forall rc tbl',
   thingy_table_add_from_string table_123 ([122; 122] ++ [61; 49; 0]) =
     Some (rc, tbl') -> rc <> 2).
Proof.
  assert (Forall token_char [122; 122]) as Ht by (repeat constructor; done).
  assert ([122; 122] <> @nil Z) as Hne by discriminate.
  assert (after_key [61; 49; 0]) as Hr by (by right).
  split; [done|].
  exact (non_hex_key_rejected table_123 [122; 122] [61; 49; 0] Ht Hne Hr).
Defined.

(** X8: the checks on the length of the key.  A line that is a slash or a
    star with no hex digit after it returns 3; a key of more than 510 hex
    digits (more than 255 bytes) returns 4, with or without the slash or
    star.  The table is left as it was. *)
Theorem key_length_checked tbl p h rest :
  p = 47 \/ p = 42 -> Forall hex_digit h -> after_key rest ->
  thingy_table_add_from_string tbl (p :: rest) = Some (3, tbl) /\
  ((510 < length h)%nat ->
   thingy_table_add_from_string tbl (h ++ rest) = Some (4, tbl) /\
   thingy_table_add_from_string tbl (p :: h ++ rest) = Some (4, tbl)).
Proof.
  intros Hp Hh Hr. split.
  - change (p :: rest) with (p :: [] ++ rest).
    rewrite add_from_string_prefixed by done.
    by rewrite after_strtok_prefixed by done.
  - intros Hlong.
    assert (h <> []) as Hne by (intros ->; cbn in Hlong; lia).
    split.
    + rewrite add_from_string_hex, after_strtok_hex by done. cbv zeta.
      by rewrite keylen_large.
    + rewrite add_from_string_prefixed, after_strtok_prefixed by done.
      cbv zeta. rewrite keylen_large by done.
      destruct (_ =? 0)%nat eqn:E0; [|done]. apply Nat.eqb_eq in E0.
      pose proof (keylen_large h Hlong) as Hl%Nat.ltb_lt. lia.
Qed.

Lemma key_length_checked_witness :
  (47 = 47 \/ 47 = 42) /\ Forall hex_digit [] /\ after_key [61; 120; 0] /\
  thingy_table_add_from_string table_123 (47 :: [61; 120; 0]) =
    Some (3, table_123) /\
  ((510 < length (@nil Z))%nat ->
   thingy_table_add_from_string table_123 ([] ++ [61; 120; 0]) =
     Some (4, table_123) /\
   thingy_table_add_from_string table_123 (47 :: [] ++ [61; 120; 0]) =
     Some (4, table_123)).
Proof.
  assert (47 = 47 \/ 47 = 42) as Hp by (by left).
  assert (after_key [61; 120; 0]) as Hr by (by right).
  split; [done|]. split; [apply Forall_nil_2|]. split; [done|].
  exact (key_length_checked table_123 47 [] [61; 120; 0] Hp
           (Forall_nil_2 hex_digit) Hr).
Defined.

(** X9: equals signs at the start of a line are skipped by the first
    [strtok]: the line is read as the line without them, and a line made of
    equals signs only returns 1. *)
Theorem leading_equals_skipped tbl n s :
  thingy_table_add_from_string tbl (replicate n 61 ++ s) =
    thingy_table_add_from_string tbl s /\
  thingy_table_add_from_string tbl (replicate n 61 ++ [0]) = Some (1, tbl).
Proof.
  assert (forall s', thingy_table_add_from_string tbl (replicate n 61 ++ s') =
                     thingy_table_add_from_string tbl s') as H.
  { intros s'. induction n as [|n IH]; [done|]. cbn [replicate app].
    by rewrite add_from_string_equals. }
  split; [apply H|]. by rewrite H.
Qed.

(** X10: on a line that starts with a slash or a star, what follows the
    key is not read: the value is the newline or the null byte whatever the
    line goes on with. *)
Theorem prefixed_line_ignores_value tbl p h rest :
  p = 47 \/ p = 42 -> Forall hex_digit h -> after_key rest ->
  thingy_table_add_from_string tbl (p :: h ++ rest) =
  thingy_table_add_from_string tbl (p :: h ++ [0]).
Proof.
  intros Hp Hh Hr.
  assert (after_key [0]) as H0 by (by left).
  rewrite !add_from_string_prefixed by done.
  by rewrite !after_strtok_prefixed by done.
Qed.

Lemma prefixed_line_ignores_value_witness :
  ((42 = 47 \/ 42 = 42) /\ Forall hex_digit [48; 65] /\
   after_key [61; 120; 0]) /\
  thingy_table_add_from_string table_123 (42 :: [48; 65] ++ [61; 120; 0]) =
  thingy_table_add_from_string table_123 (42 :: [48; 65] ++ [0]).
Proof.
  assert (42 = 47 \/ 42 = 42) as Hp by (by right).
  assert (Forall hex_digit [48; 65]) as Hh by (repeat constructor).
  assert (after_key [61; 120; 0]) as Hr by (by right).
  split; [done|].
  exact (prefixed_line_ignores_value table_123 42 [48; 65] [61; 120; 0]
           Hp Hh Hr).
Defined.

(** [delete] of a one-byte key whose slot is filled. *)
Lemma delete_one_byte tbl k k0 v :
  k !! O = Some k0 -> values tbl k0 = Ptr v -> 1 <= longest_key tbl ->
  thingy_table_delete tbl 1 (Ptr k) = Some (0, set_value tbl k0 NULL) /\
  thingy_table_search (set_value tbl k0 NULL) 1 (Ptr k) = Some NULL.
Proof.
  intros Hk0 Hv Hlk.
  assert ((1 >? longest_key tbl) = false) as Egt.
  { rewrite Z.gtb_ltb. apply Z.ltb_ge. lia. }
  unfold thingy_table_delete, thingy_table_search.
  cbn [Z.eqb longest_key set_value]. rewrite Egt, Hk0.
  cbn [mbind option_bind values set_value]. by rewrite Hv, upd_same.
Qed.

(** X11: a line HEXKEY=VALUE with a key of either parity and a value that
    is not empty (it may hold equals signs), in a state that is fresh for
    the decoded key, returns 0 and [search] then returns VALUE for the
    key; the bare line HEXKEY then returns 16, and for a one-byte key
    [search] then returns [NULL].  For keys that [strdup] copies whole. *)
Theorem definition_line_round_trip tbl h value :
  reachable tbl -> Forall hex_digit h -> (1 <= length h <= 510)%nat ->
  cstr value <> [] -> early_nul (hex_key h (length h)) = false ->
  let keylen := Z.of_nat ((length h + 1) / 2) in
  let key := hex_key h (length h) in
  fresh_for tbl keylen key = true ->
  exists tbl1 tbl2,
    thingy_table_add_from_string tbl (h ++ 61 :: value) = Some (0, tbl1) /\
    thingy_table_search tbl1 keylen (Ptr key) =
      Some (Ptr (cstr value ++ [0])) /\
    thingy_table_add_from_string tbl1 (h ++ [0]) = Some (16, tbl2) /\
    (keylen = 1 -> thingy_table_search tbl2 keylen (Ptr key) = Some NULL).
Proof.
  intros Hr%reachable_wf Hh Hlen Hv Hnul keylen key Hf.
  assert (h <> []) as Hne by (intros ->; cbn in Hlen; lia).
  pose proof (keylen_small h ltac:(lia)) as Hsmall.
  assert (1 <= keylen <= 255) as Hkl.
  { apply Nat.ltb_ge in Hsmall. unfold keylen.
    pose proof (keylen_pos h ltac:(lia)). lia. }
  assert (length key = Z.to_nat keylen) as Hk.
  { unfold key, keylen. rewrite hex_key_length. lia. }
  destruct (key_head keylen key ltac:(lia) Hk) as [k0 Hk0].
  pose proof (assign_fresh_for tbl keylen key k0 (cstr value ++ [0])
                ltac:(lia) Hk0 Hf) as Ha.
  pose proof (search_after_assign tbl keylen key Hr Hkl Hk Hnul _ _ _ Ha) as Hs.
  assert (strdup (cstr value ++ [0]) = cstr value ++ [0]) as Hdup.
  { rewrite strdup_app by apply cstr_nonzero. done. }
  assert (wf (snd (0, if keylen =? 1
        then raise_longest_key
               (set_value tbl k0 (Ptr (strdup (cstr value ++ [0])))) 1
        else raise_longest_key
               (set_chain tbl k0
                  (chain_node
                     (linked_list.mk keylen (strdup key)
                        (strdup (cstr value ++ [0]))) chain_unwritten))
               keylen))) as Hwf1.
  { eapply assign_wf; [exact Hr| |exact Hk|exact Ha]. lia. }
  cbn [snd] in Hwf1.
  assert (after_key (61 :: value)) as Hr1 by (by right).
  assert (after_key [0]) as Hr0 by (by left).
  assert (forall t, thingy_table_add_from_string t (h ++ [0]) =
    (r ← thingy_table_delete t keylen (Ptr key); Some (16 + fst r, snd r)))
    as Hbare.
  { intros t. rewrite add_from_string_hex, after_strtok_hex by done.
    cbv zeta. rewrite Hsmall. by change (cstr (save_after [0])) with (@nil Z). }
  assert (thingy_table_add_from_string tbl (h ++ 61 :: value) =
    (r ← thingy_table_assign tbl keylen (Ptr key) (Ptr (cstr value ++ [0]));
     Some (0, snd r))) as Hline.
  { rewrite add_from_string_hex, after_strtok_hex by done. cbv zeta.
    rewrite Hsmall, cstr_save_after_eq. fold keylen key.
    by destruct (cstr value) eqn:E. }
  rewrite Hline, Ha. cbn [mbind option_bind snd].
  destruct (keylen =? 1) eqn:E1.
  - apply Z.eqb_eq in E1. rewrite E1 in *.
    set (tbl1 := raise_longest_key _ 1) in *.
    assert (values tbl1 k0 = Ptr (cstr value ++ [0])) as Hval.
    { unfold tbl1. rewrite values_raise. cbn [values set_value].
      by rewrite upd_same, Hdup. }
    pose proof (wf_values _ Hwf1 _ _ Hval) as Hlk.
    destruct (delete_one_byte tbl1 key k0 _ Hk0 Hval Hlk) as [Hd Hs2].
    exists tbl1, (set_value tbl1 k0 NULL). split_and!.
    + done.
    + by rewrite Hs, Hdup.
    + by rewrite Hbare, Hd.
    + done.
  - destruct (delete_found _ _ _ _ Hs) as [tbl2 Hd].
    eexists _, tbl2. split_and!.
    + done.
    + by rewrite Hs, Hdup.
    + by rewrite Hbare, Hd.
    + intros ->. done.
Qed.

Lemma definition_line_round_trip_witness :
  (reachable table_123 /\ Forall hex_digit [52; 49] /\
   (1 <= length [52; 49] <= 510)%nat /\ cstr [97; 61; 98; 0] <> [] /\
   early_nul (hex_key [52; 49] (length [52; 49])) = false /\
   fresh_for table_123 (Z.of_nat ((length [52; 49] + 1) / 2))
     (hex_key [52; 49] (length [52; 49])) = true) /\
  exists tbl1 tbl2,
    thingy_table_add_from_string table_123 ([52; 49] ++ 61 :: [97; 61; 98; 0]) =
      Some (0, tbl1) /\
    thingy_table_search tbl1 (Z.of_nat ((length [52; 49] + 1) / 2))
      (Ptr (hex_key [52; 49] (length [52; 49]))) =
      Some (Ptr (cstr [97; 61; 98; 0] ++ [0])) /\
    thingy_table_add_from_string tbl1 ([52; 49] ++ [0]) = Some (16, tbl2) /\
    (Z.of_nat ((length [52; 49] + 1) / 2) = 1 ->
     thingy_table_search tbl2 (Z.of_nat ((length [52; 49] + 1) / 2))
       (Ptr (hex_key [52; 49] (length [52; 49]))) = Some NULL).
Proof.
  assert (Forall hex_digit [52; 49]) as Hh by (repeat constructor).
  assert (1 <= length [52; 49] <= 510)%nat as Hlen by (cbn; lia).
  assert (cstr [97; 61; 98; 0] <> []) as Hv by discriminate.
  split.
  { split; [exact table_123_reachable|]. split; [done|]. split; [done|].
    by split_and!. }
  exact (definition_line_round_trip table_123 [52; 49] [97; 61; 98; 0]
           table_123_reachable Hh Hlen Hv eq_refl eq_refl).
Defined.

(** ** The decoded key *)

Lemma digit_value_range c : 0 <= digit_value c <= 15.
Proof.
  unfold digit_value.
  destruct ((48 <=? c) && (c <=? 57)) eqn:E1; [lia|].
  destruct ((65 <=? c) && (c <=? 70)) eqn:E2; [lia|].
  destruct ((97 <=? c) && (c <=? 102)) eqn:E3; lia.
Qed.

Lemma hex_pairs_range h :
  Forall (fun b => 0 <= b <= 255) (hex_pairs h) /\
  forall c, Forall (fun b => 0 <= b <= 255) (hex_pairs (c :: h)).
Proof.
  induction h as [|a h [IH1 IH2]]; [by split; [|intros c]; cbn|].
  split; [apply IH2|]. intros c. cbn [hex_pairs]. constructor; [|done].
  pose proof (digit_value_range c). pose proof (digit_value_range a). lia.
Qed.

(** X12: the decoding loop reads a string of hex digits, upper or lower
    case, two digits to the byte from the left, after a zero digit put in
    front when their number is odd; the key has half as many bytes, rounded
    up, each in the range of a byte. *)
Theorem hex_key_decodes h :
  Forall hex_digit h ->
  hex_key h (length h) =
    hex_pairs (if Nat.odd (length h) then 48 :: h else h) /\
  length (hex_key h (length h)) = ((length h + 1) / 2)%nat /\
  Forall (fun b => 0 <= b <= 255) (hex_key h (length h)).
Proof.
  intros Hh. split_and!.
  - by apply hex_key_pairs.
  - apply hex_key_length.
  - rewrite hex_key_pairs by done. apply hex_pairs_range.
Qed.

Lemma hex_key_decodes_witness :
  Forall hex_digit [49; 97; 70] /\
  hex_key [49; 97; 70] (length [49; 97; 70]) =
    hex_pairs (if Nat.odd (length [49; 97; 70])
               then 48 :: [49; 97; 70] else [49; 97; 70]) /\
  length (hex_key [49; 97; 70] (length [49; 97; 70])) =
    ((length [49; 97; 70] + 1) / 2)%nat /\
  Forall (fun b => 0 <= b <= 255) (hex_key [49; 97; 70] (length [49; 97; 70])).
Proof.
  assert (Forall hex_digit [49; 97; 70]) as Hh by (repeat constructor).
  split; [done|].
  exact (hex_key_decodes [49; 97; 70] Hh).
Defined.

Example hex_key_1aF : hex_key [49; 97; 70] 3 = [1; 175].
Proof. reflexivity. Qed.

(** ** Indented lines *)

Lemma whitespace_no_newline ws : forallb whitespace ws = true -> 10 ∉ ws.
Proof.
  induction ws as [|c ws IH]; cbn [forallb]; [intros _; apply not_elem_of_nil|].
  intros [Hc Hws]%andb_true_iff. apply not_elem_of_cons.
  split; [by intros <-|by apply IH].
Qed.

Lemma whitespace_cases c : whitespace c = true -> c = 32 \/ c = 9.
Proof.
  unfold whitespace. intros [H|H]%orb_true_iff; apply Z.eqb_eq in H; lia.
Qed.

(** A line that starts with a hash is not a key. *)
Lemma add_from_string_hash tbl s :
  thingy_table_add_from_string tbl (35 :: s) = Some (2, tbl).
Proof. reflexivity. Qed.

Lemma buffer_line_indent tbl count c L :
  whitespace c = true ->
  (r ← buffer_line tbl (c :: L); Some (snd r, count + counts (fst r))) =
  (r ← buffer_line tbl L; Some (snd r, count + counts (fst r))).
Proof.
  intros Hc. pose proof (whitespace_cases c Hc) as Hc'. unfold buffer_line.
  assert (cstr (c :: L) = c :: cstr L) as ->.
  { cbn [cstr]. destruct (c =? 0) eqn:E; [apply Z.eqb_eq in E; lia|done]. }
  cbn [forallb]. rewrite Hc. cbn [andb].
  destruct (forallb whitespace (cstr L)) eqn:Eb; [done|].
  cbn [nth]. assert ((c =? 35) = false) as -> by (apply Z.eqb_neq; lia).
  cbn [skip_whitespace]. unfold whitespace in Hc. rewrite Hc.
  destruct (nth O (cstr L) 0 =? 35) eqn:E35; [|done].
  destruct (cstr L) as [|x T]; [done|]. cbn [nth] in E35.
  apply Z.eqb_eq in E35. subst x.
  change (skip_whitespace (35 :: T)) with (35 :: T). cbn [app].
  by rewrite add_from_string_hash.
Qed.

(** X13: spaces and tabs before a line do not change what the file loop
    does with it.  This holds for a comment line as well, by another path:
    the test for the hash looks at the first byte of the buffer, so an
    indented comment is handed to [thingy_table_add_from_string], which
    returns 2 on every string that starts with a hash and leaves the table
    and the count as they were. *)
Theorem indentation_ignored tbl count ws L :
  forallb whitespace ws = true -> (10 ∉ L) ->
  add_from_file_step tbl count (ws ++ L ++ [10; 0]) =
    add_from_file_step tbl count (L ++ [10; 0]) /\
  (forall s, thingy_table_add_from_string tbl (35 :: s) = Some (2, tbl)).
Proof.
  intros Hws HL. split; [|apply add_from_string_hash].
  pose proof (whitespace_no_newline _ Hws) as Hnl.
  assert (10 ∉ ws ++ L) as HwL by (by apply not_elem_of_app).
  rewrite (app_assoc ws L), !add_from_file_step_line by done.
  clear Hnl HwL. induction ws as [|c ws IH]; [done|].
  cbn [forallb] in Hws. apply andb_true_iff in Hws as [Hc Hws].
  cbn [app]. rewrite buffer_line_indent by done. by apply IH.
Qed.

Lemma indentation_ignored_witness :
  (forallb whitespace [32; 9] = true /\ (10 ∉ [35; 99])) /\
  add_from_file_step table_123 0 ([32; 9] ++ [35; 99] ++ [10; 0]) =
    add_from_file_step table_123 0 ([35; 99] ++ [10; 0]) /\
  (forall s, thingy_table_add_from_string table_123 (35 :: s) =
             Some (2, table_123)).
Proof.
  assert (10 ∉ [35; 99]) as HL.
  { intros H. apply elem_of_cons in H as [H|H]; [done|].
    apply elem_of_cons in H as [H|H]; [done|]. by apply elem_of_nil in H. }
  split; [by split|].
  exact (indentation_ignored table_123 0 [32; 9] [35; 99] eq_refl HL).
Defined.

(** ** A file read in two parts *)

Lemma fgets_read_app x : forall room b l rest,
  fgets_read room (x ++ [10]) = (l, rest) ->
  fgets_read room ((x ++ [10]) ++ b) = (l, rest ++ b) /\
  (rest = [] \/ exists x', rest = x' ++ [10]).
Proof.
  induction x as [|c x IH]; intros room b l rest;
    destruct room as [|room]; cbn [app fgets_read].
  - intros [= <- <-]. split; [done|right; by exists []].
  - rewrite Z.eqb_refl. intros [= <- <-]. split; [done|by left].
  - intros [= <- <-]. split; [done|right; by exists (c :: x)].
  - destruct (c =? 10).
    + intros [= <- <-]. split; [done|right; by exists x].
    + destruct (fgets_read room (x ++ [10])) as [l0 rest0] eqn:E.
      intros [= <- <-]. destruct (IH room b _ _ E) as [-> Hr]. by split.
Qed.

Lemma add_from_file_step_count tbl count buf :
  add_from_file_step tbl count buf =
  match add_from_file_step tbl 0 buf with
  | Some (t, n) => Some (t, count + n)
  | None => None
  end.
Proof.
  unfold add_from_file_step. cbv zeta.
  destruct (nth O _ 0 =? 0); [by rewrite Z.add_0_r|].
  destruct (nth O _ 0 =? 35); [by rewrite Z.add_0_r|].
  destruct (thingy_table_add_from_string _ _) as [[rc t]|]; [|done].
  cbn [mbind option_bind fst snd].
  destruct (rc =? 0); [done|by rewrite Z.add_0_r].
Qed.

Lemma add_from_file_loop_count fuel : forall tbl file count,
  add_from_file_loop fuel tbl file count =
  match add_from_file_loop fuel tbl file 0 with
  | Some (t, n) => Some (t, count + n)
  | None => None
  end.
Proof.
  induction fuel as [|fuel IH]; intros tbl file count; [done|].
  cbn [add_from_file_loop].
  destruct (fgets 1024 file) as [[|buf] rest]; [by rewrite Z.add_0_r|].
  rewrite (add_from_file_step_count tbl count buf).
  destruct (add_from_file_step tbl 0 buf) as [[t n]|]; [|done].
  cbn [mbind option_bind fst snd].
  rewrite (IH t rest (count + n)), (IH t rest n).
  destruct (add_from_file_loop fuel t rest 0) as [[t' n']|]; [|done].
  by rewrite Z.add_assoc.
Qed.

Lemma add_from_file_loop_app fuel : forall a b tbl count,
  a = [] \/ (exists x, a = x ++ [10]) ->
  (length (a ++ b) < fuel)%nat ->
  add_from_file_loop fuel tbl (a ++ b) count =
  match add_from_file_loop fuel tbl a count with
  | Some (t, n) => add_from_file_loop fuel t b n
  | None => None
  end.
Proof.
  induction fuel as [|fuel IH]; intros a b tbl count Ha Hfuel; [lia|].
  destruct Ha as [->|[x ->]]; [done|].
  cbn [add_from_file_loop]. unfold fgets.
  destruct (x ++ [10]) as [|c a'] eqn:Ea; [by destruct x|].
  pose proof (f_equal length Ea) as Hea. rewrite length_app in Hea.
  cbn [app]. change (c :: a' ++ b) with ((c :: a') ++ b). rewrite <- Ea.
  destruct (fgets_read (1024 - 1) (x ++ [10])) as [l rest] eqn:E.
  destruct (fgets_read_app _ _ b _ _ E) as [E' Hrest]. rewrite E'.
  destruct (fgets_read_length _ _ _ _ E) as [Hlen Hpos].
  assert (x ++ [10] <> []) as Hx by (by destruct x).
  assert (0 < 1024 - 1)%nat as Hroom by lia.
  specialize (Hpos Hx Hroom).
  rewrite !length_app in Hfuel. rewrite length_app in Hlen.
  destruct (add_from_file_step tbl count (l ++ [0])) as [[t1 c1]|]; [|done].
  cbn [mbind option_bind fst snd].
  rewrite IH by (done || rewrite length_app; cbn in *; lia).
  destruct (add_from_file_loop fuel t1 rest c1) as [[t2 c2]|]; [|done].
  assert (length b < fuel)%nat as Hb by (cbn in *; lia).
  assert (length b < S fuel)%nat as Hb' by lia.
  exact (add_from_file_loop_fuel fuel (S fuel) t2 b c2 Hb Hb').
Qed.

(** X14: a file can be loaded in two parts.  Loading a file that is cut
    after one of its newlines gives what loading the first part and then the
    second part gives, and the count of the whole file is the sum of the two
    counts.  No condition on the length of the lines. *)
Theorem add_from_file_concat tbl a b count :
  thingy_table_add_from_file tbl (Ptr ((a ++ [10]) ++ b)) (Ptr count) =
  match thingy_table_add_from_file tbl (Ptr (a ++ [10])) (Ptr count) with
  | Some (_, tbl1, Ptr n1) =>
      match thingy_table_add_from_file tbl1 (Ptr b) (Ptr count) with
      | Some (_, tbl2, Ptr n2) => Some (0, tbl2, Ptr (n1 + n2))
      | _ => None
      end
  | _ => None
  end.
Proof.
  unfold thingy_table_add_from_file.
  set (F := S (length ((a ++ [10]) ++ b))).
  assert (length (a ++ [10%Z]) < F)%nat as Ha.
  { unfold F. rewrite !length_app. lia. }
  assert (length b < F)%nat as Hb.
  { unfold F. rewrite !length_app. lia. }
  rewrite (add_from_file_loop_app F) by (by eauto || (unfold F; lia)).
  rewrite (add_from_file_loop_fuel F (S (length (a ++ [10])))) by (done || lia).
  destruct (add_from_file_loop (S (length (a ++ [10]))) tbl (a ++ [10]) 0)
    as [[t1 n1]|]; [|done].
  cbn [mbind option_bind fst snd].
  rewrite (add_from_file_loop_count F t1 b n1).
  rewrite (add_from_file_loop_fuel F (S (length b))) by (done || lia).
  by destruct (add_from_file_loop (S (length b)) t1 b 0) as [[t2 n2]|].
Qed.

(** ** A line longer than the buffer *)

(** X15: the file loop reads with a buffer of 1024 bytes.  When a file
    starts with 1023 bytes without a newline, these bytes are processed as
    a line of their own, and what follows them, the rest of that line
    included, is loaded as a file of its own; the counts add up. *)
Theorem long_line_split tbl P rest count :
  length P = 1023%nat -> (10 ∉ P) ->
  thingy_table_add_from_file tbl (Ptr (P ++ rest)) (Ptr count) =
  match add_from_file_step tbl 0 (P ++ [0]) with
  | Some (tbl1, n1) =>
      match thingy_table_add_from_file tbl1 (Ptr rest) (Ptr count) with
      | Some (_, tbl2, Ptr n2) => Some (0, tbl2, Ptr (n1 + n2))
      | _ => None
      end
  | None => None
  end.
Proof.
  intros HP Hnl. unfold thingy_table_add_from_file.
  assert (length rest < length (P ++ rest))%nat as Hfuel.
  { rewrite length_app. lia. }
  assert (add_from_file_loop (S (length (P ++ rest))) tbl (P ++ rest) 0 =
          (r ← add_from_file_step tbl 0 (P ++ [0]);
           add_from_file_loop (length (P ++ rest)) (fst r) rest (snd r)))
    as ->.
  { cbn [add_from_file_loop]. unfold fgets.
    destruct (P ++ rest) as [|c f] eqn:Ef; [cbn in Hfuel; lia|]. rewrite <- Ef.
    by rewrite fgets_read_full. }
  destruct (add_from_file_step tbl 0 (P ++ [0])) as [[t1 n1]|]; [|done].
  cbn [mbind option_bind fst snd].
  rewrite (add_from_file_loop_count _ t1 rest n1).
  rewrite (add_from_file_loop_fuel _ (S (length rest))) by (done || lia).
  by destruct (add_from_file_loop (S (length rest)) t1 rest 0) as [[t2 n2]|].
Qed.

Lemma long_line_split_witness :
  (length (replicate 1023 120) = 1023%nat /\ (10 ∉ replicate 1023 120)) /\
  thingy_table_add_from_file thingy_table_init
    (Ptr (replicate 1023 120 ++ [10])) (Ptr 0) =
  match add_from_file_step thingy_table_init 0 (replicate 1023 120 ++ [0]) with
  | Some (tbl1, n1) =>
      match thingy_table_add_from_file tbl1 (Ptr [10]) (Ptr 0) with
      | Some (_, tbl2, Ptr n2) => Some (0, tbl2, Ptr (n1 + n2))
      | _ => None
      end
  | None => None
  end.
Proof.
  assert (length (replicate 1023 120) = 1023%nat) as HP
    by apply length_replicate.
  assert (10 ∉ replicate 1023 120) as Hnl.
  { intros [H _]%elem_of_replicate. discriminate. }
  split; [done|].
  exact (long_line_split thingy_table_init (replicate 1023 120) [10] 0 HP Hnl).
Defined.

(** ** Assigning to a key that is present *)

Lemma strdup_fixed_whole k : strdup k = k -> early_nul k = false.
Proof.
  induction k as [|c k IH]; [done|]. cbn [strdup early_nul].
  destruct (c =? 0) eqn:E.
  - by intros [= _ <-].
  - intros [= Hk]. destruct k as [|c' k]; [done|]. cbn [orb]. by apply IH.
Qed.

Lemma search_chain_found c len k v :
  search_chain c len k = Some (Ptr v) ->
  exists n, n ∈ nodes c /\ linked_list.length n = len /\
            memcmp k (linked_list.key n) (Z.to_nat len) = Some 0.
Proof.
  induction c as [| |a c IH]; cbn [search_chain nodes]; [done..|].
  destruct (linked_list.length a =? len) eqn:El.
  - destruct (memcmp k (linked_list.key a) (Z.to_nat len)) as [r|] eqn:Em;
      [|done]. cbn [mbind option_bind].
    destruct (r =? 0) eqn:Er.
    + intros _. exists a. apply Z.eqb_eq in El, Er. subst r.
      split; [apply elem_of_cons; by left|done].
    + intros (n & ? & ?)%IH. exists n.
      split; [apply elem_of_cons; by right|done].
  - intros (n & ? & ?)%IH. exists n.
    split; [apply elem_of_cons; by right|done].
Qed.

Lemma search_chain_assign c len k v0 v :
  search_chain c len k = Some (Ptr v0) ->
  exists c', assign_chain c len k (Ptr v) = Some (c', false).
Proof.
  induction c as [| |n c IH]; cbn [search_chain assign_chain]; [done..|].
  destruct (linked_list.length n =? len).
  - rewrite (memcmp_swap k (linked_list.key n)).
    destruct (memcmp k (linked_list.key n) (Z.to_nat len)) as [r|]; [|done].
    cbn [fmap option_fmap option_map mbind option_bind].
    destruct (r =? 0) eqn:Er.
    + apply Z.eqb_eq in Er. subst r. intros _. by eexists.
    + assert ((- r =? 0) = false) as ->.
      { apply Z.eqb_neq. apply Z.eqb_neq in Er. lia. }
      intros [c' ->]%IH. by eexists.
  - intros [c' ->]%IH. by eexists.
Qed.

(** In a table that keeps the invariant, a key that [search] finds is one
    that [strdup] copies whole. *)
Lemma found_key_whole tbl len k v0 :
  wf tbl -> 1 <= len -> length k = Z.to_nat len ->
  thingy_table_search tbl len (Ptr k) = Some (Ptr v0) ->
  early_nul k = false.
Proof.
  intros Hr Hlen Hk Hs.
  destruct (key_head len k Hlen Hk) as [k0 Ek0].
  assert ((len =? 0) = false) as E0 by (apply Z.eqb_neq; lia).
  destruct (len =? 1) eqn:E1.
  - apply Z.eqb_eq in E1. subst len. by destruct k as [|? [|? ?]].
  - revert Hs. unfold thingy_table_search. rewrite E0, E1, Ek0.
    destruct (len >? longest_key tbl); [done|]. cbn [mbind option_bind].
    intros (n & Hin & Hln & Hm)%search_chain_found.
    pose proof (wf_nodes _ Hr k0) as Hn. rewrite Forall_forall in Hn.
    destruct (Hn n Hin) as [_ (k2 & Hk2 & Hkey & _)].
    rewrite Hln in Hk2. rewrite Hkey, <- Hk in Hm.
    apply memcmp_zero_strdup in Hm; [|lia].
    assert (strdup k2 = k2) as Hw by (apply strdup_whole; rewrite Hm; lia).
    apply strdup_fixed_whole. congruence.
Qed.

(** X16: [assign] on a key that [search] finds replaces the value in
    place: it returns 0, [search] then returns the copy of the new value,
    [longest_key] stays, and no chain gains or loses an entry.  In every
    reachable table. *)
Theorem assign_present_replaces tbl len k v0 v :
  reachable tbl -> 1 <= len <= 255 -> length k = Z.to_nat len ->
  thingy_table_search tbl len (Ptr k) = Some (Ptr v0) ->
  exists tbl',
    thingy_table_assign tbl len (Ptr k) (Ptr v) = Some (0, tbl') /\
    thingy_table_search tbl' len (Ptr k) = Some (Ptr (strdup v)) /\
    longest_key tbl' = longest_key tbl /\
    forall b, map node_id (nodes (mbseqs tbl' b)) =
              map node_id (nodes (mbseqs tbl b)).
Proof.
  intros Hr%reachable_wf Hlen Hk Hs.
  destruct (key_head len k ltac:(lia) Hk) as [k0 Ek0].
  assert ((len =? 0) = false) as E0 by (apply Z.eqb_neq; lia).
  pose proof (found_key_whole tbl len k v0 Hr ltac:(lia) Hk Hs) as Hnul.
  assert (exists tbl',
    thingy_table_assign tbl len (Ptr k) (Ptr v) = Some (0, tbl') /\
    longest_key tbl' = longest_key tbl /\
    forall b, map node_id (nodes (mbseqs tbl' b)) =
              map node_id (nodes (mbseqs tbl b))) as (tbl' & Ha & Hlk & Hids).
  { revert Hs. unfold thingy_table_assign, thingy_table_search.
    rewrite E0. cbn [deref mbind option_bind]. rewrite Ek0.
    cbn [mbind option_bind].
    destruct (len >? longest_key tbl); [done|].
    destruct (len =? 1) eqn:E1.
    - apply Z.eqb_eq in E1. subst len. intros [= Hv].
      pose proof (wf_values _ Hr _ _ Hv) as Hlk.
      rewrite Hv. cbn [strdup_ptr deref mbind option_bind]. eexists.
      split; [done|].
      split; [rewrite longest_key_raise; cbn; lia|].
      intros b. by rewrite mbseqs_raise.
    - intros Hs. destruct (search_chain_assign _ _ _ _ v Hs) as [c' Hc].
      rewrite Hc. eexists. split; [done|]. split; [done|].
      intros b. cbn.
      destruct (decide (b = k0)) as [->|Hb]; [|by rewrite upd_other].
      rewrite upd_same. by destruct (assign_chain_ids _ _ _ _ _ _ Hc). }
  exists tbl'. split; [done|]. split; [|done].
  by eapply search_after_assign.
Qed.

Lemma assign_present_replaces_witness :
  (reachable table_123 /\ 1 <= 2 <= 255 /\ length [1; 35] = Z.to_nat 2 /\
   thingy_table_search table_123 2 (Ptr [1; 35]) = Some (Ptr (lit "x"))) /\
  exists tbl',
    thingy_table_assign table_123 2 (Ptr [1; 35]) (Ptr (lit "y")) =
      Some (0, tbl') /\
    thingy_table_search tbl' 2 (Ptr [1; 35]) = Some (Ptr (strdup (lit "y"))) /\
    longest_key tbl' = longest_key table_123 /\
    forall b, map node_id (nodes (mbseqs tbl' b)) =
              map node_id (nodes (mbseqs table_123 b)).
Proof.
  split; [by split_and!; try exact table_123_reachable|].
  exact (assign_present_replaces table_123 2 [1; 35] (lit "x") (lit "y")
           table_123_reachable ltac:(lia) eq_refl eq_refl).
Defined.
